(** * The alarm-series screen: store, editor and playback engine

    A shallow embedding of [src/app/(tabs)/series.tsx].  The React component
    [SeriesScreen] is modelled as a record of its [useState] cells, the
    handlers as functions on a [World] that also carries the AsyncStorage
    slot, the wall clock, the pending [setInterval] closure of the timer
    effect and a log of what the user perceives (haptics, alerts).

    Numbers are JavaScript numbers in the source; every number that the
    screen produces or reads here is an integer count of milliseconds (or a
    list index), and is modelled in [Z], which is exact as long as the
    numbers stay within the safe integers (see [MAX_SAFE_INTEGER]). *)

From Stdlib Require Import ZArith List Bool Lia.
From stdpp Require Import base tactics option list strings pretty.

Local Open Scope Z_scope.

(** ** Data model *)

(** [interface AlarmStep { id: string; duration: number; name: string }] *)
Module AlarmStep.
Record t := mk { id : string; duration : Z; name : string }.
End AlarmStep.
Abbreviation AlarmStep := AlarmStep.t.

(** [interface AlarmSeries { id: string; name: string; steps: AlarmStep[] }] *)
Module AlarmSeries.
Record t := mk { id : string; name : string; steps : list AlarmStep }.
End AlarmSeries.
Abbreviation AlarmSeries := AlarmSeries.t.

(** [Partial<AlarmStep>]: every field may be absent. *)
Module PartialAlarmStep.
Record t := mk { id : option string; duration : option Z; name : option string }.
End PartialAlarmStep.
Abbreviation PartialAlarmStep := PartialAlarmStep.t.

#[global] Instance AlarmStep_eq_dec : EqDecision AlarmStep.
Proof. solve_decision. Defined.

#[global] Instance AlarmSeries_eq_dec : EqDecision AlarmSeries.
Proof. solve_decision. Defined.

(** The object spread [{ ...step, ...updates }]: the fields present in
    [updates] win. *)
Definition spread (step : AlarmStep) (updates : PartialAlarmStep) : AlarmStep :=
  {| AlarmStep.id := default (AlarmStep.id step) (PartialAlarmStep.id updates);
     AlarmStep.duration :=
       default (AlarmStep.duration step) (PartialAlarmStep.duration updates);
     AlarmStep.name := default (AlarmStep.name step) (PartialAlarmStep.name updates) |}.

(** [Array.prototype.findIndex]: the first index whose element satisfies
    the predicate, [-1] when there is none. *)
Fixpoint findIndex {A : Type} (p : A -> bool) (l : list A) : Z :=
  match l with
  | [] => -1
  | x :: l' =>
      if p x then 0
      else let i := findIndex p l' in if i <? 0 then -1 else i + 1
  end.

(** Strict equality [===] on strings. *)
Definition str_eq (a b : string) : bool := String.eqb a b.

(** [Number.prototype.toString()] on an integer: its decimal numeral. *)
Definition toString (n : Z) : string := pretty n.

(** ** JSON values

    TypeScript's annotations are erased at run time: what [JSON.parse]
    returns, and therefore what [loadSeries] puts in the [series] cell, is
    an arbitrary JSON value. *)
#[warnings="-register-all"]
Inductive json : Type :=
  | JNull
  | JBool (b : bool)
  | JNum (n : Z)
  | JStr (s : string)
  | JArr (xs : list json)
  | JObj (fields : list (string * json)).

(** Property access [o.k] on the own properties of an object. *)
Fixpoint prop (k : string) (fields : list (string * json)) : option json :=
  match fields with
  | [] => None
  | (k', v) :: rest => if str_eq k' k then Some v else prop k rest
  end.

Definition step_to_json (s : AlarmStep) : json :=
  JObj [("id"%string, JStr (AlarmStep.id s));
        ("duration"%string, JNum (AlarmStep.duration s));
        ("name"%string, JStr (AlarmStep.name s))].

Definition series_to_json (s : AlarmSeries) : json :=
  JObj [("id"%string, JStr (AlarmSeries.id s));
        ("name"%string, JStr (AlarmSeries.name s));
        ("steps"%string, JArr (map step_to_json (AlarmSeries.steps s)))].

Definition collection_to_json (l : list AlarmSeries) : json :=
  JArr (map series_to_json l).

(** Reading a JSON value back as records of the two interfaces: [None] when
    a field is missing or has the wrong type. *)
Definition json_to_step (v : json) : option AlarmStep :=
  match v with
  | JObj fs =>
      match prop "id" fs, prop "duration" fs, prop "name" fs with
      | Some (JStr i), Some (JNum d), Some (JStr n) => Some (AlarmStep.mk i d n)
      | _, _, _ => None
      end
  | _ => None
  end.

Definition json_to_series (v : json) : option AlarmSeries :=
  match v with
  | JObj fs =>
      match prop "id" fs, prop "name" fs, prop "steps" fs with
      | Some (JStr i), Some (JStr n), Some (JArr ss) =>
          match mapM json_to_step ss with
          | Some steps => Some (AlarmSeries.mk i n steps)
          | None => None
          end
      | _, _, _ => None
      end
  | _ => None
  end.

Definition json_to_collection (v : json) : option (list AlarmSeries) :=
  match v with
  | JArr xs => mapM json_to_series xs
  | _ => None
  end.

(** ** AsyncStorage

    The text held under [STORAGE_KEY], classified by what the two tests the
    screen applies to it make of it: [if (stored)] is false on the empty
    text, [JSON.parse] throws on [Malformed] text and returns [v] on the
    text of the JSON value [v] (which is what [JSON.stringify v] writes). *)
Inductive stored_text : Type :=
  | EmptyText
  | Malformed
  | Wellformed (v : json).

(** ** What the user perceives *)
Inductive Event : Type :=
  | Haptic (during : AlarmStep)
      (* [playAlarm()], called by the interval of step [during] *)
  | Alert (title message : string)
  | ConsoleError (message : string).

(** ** The component's state cells *)
Record State := mkState {
  series : json;
  currentSeries : option AlarmSeries;
  isEditing : bool;
  isPlaying : bool;
  currentStep : option AlarmStep;
  remainingTime : Z;
  modalVisible : bool
}.

Definition initialState : State :=
  {| series := JArr []; currentSeries := None; isEditing := false;
     isPlaying := false; currentStep := None; remainingTime := 0;
     modalVisible := false |}.

Definition setSeries (v : json) (s : State) : State :=
  mkState v (currentSeries s) (isEditing s) (isPlaying s) (currentStep s)
          (remainingTime s) (modalVisible s).
Definition setCurrentSeries (v : option AlarmSeries) (s : State) : State :=
  mkState (series s) v (isEditing s) (isPlaying s) (currentStep s)
          (remainingTime s) (modalVisible s).
Definition setIsEditing (v : bool) (s : State) : State :=
  mkState (series s) (currentSeries s) v (isPlaying s) (currentStep s)
          (remainingTime s) (modalVisible s).
Definition setIsPlaying (v : bool) (s : State) : State :=
  mkState (series s) (currentSeries s) (isEditing s) v (currentStep s)
          (remainingTime s) (modalVisible s).
Definition setCurrentStep (v : option AlarmStep) (s : State) : State :=
  mkState (series s) (currentSeries s) (isEditing s) (isPlaying s) v
          (remainingTime s) (modalVisible s).
Definition setRemainingTime (v : Z) (s : State) : State :=
  mkState (series s) (currentSeries s) (isEditing s) (isPlaying s)
          (currentStep s) v (modalVisible s).
Definition setModalVisible (v : bool) (s : State) : State :=
  mkState (series s) (currentSeries s) (isEditing s) (isPlaying s)
          (currentStep s) (remainingTime s) v.

(** ** The timer effect's closure

    What the callback handed to [setInterval] has captured: [startTime] and
    [duration] are the effect's locals, [currentStep] and [currentSeries]
    the cells as they were at the render that ran the effect. *)
Module Interval.
Record t := mk {
  startTime : Z;
  duration : Z;
  currentStep : AlarmStep;
  currentSeries : option AlarmSeries
}.
End Interval.
Abbreviation Interval := Interval.t.

(** ** The world a handler runs in *)
Record World := mkWorld {
  ui : State;
  item : option stored_text;   (* AsyncStorage under STORAGE_KEY *)
  io_fails : bool;             (* AsyncStorage calls reject *)
  clock : Z;                   (* Date.now() *)
  interval : option Interval;  (* the pending setInterval, if any *)
  log : list Event             (* oldest first *)
}.

Definition initialWorld (now : Z) : World :=
  mkWorld initialState None false now None [].

Definition emit (e : Event) (w : World) : World :=
  mkWorld (ui w) (item w) (io_fails w) (clock w) (interval w) (log w ++ [e]).

Definition advance (delta : Z) (w : World) : World :=
  mkWorld (ui w) (item w) (io_fails w) (clock w + delta) (interval w) (log w).

Definition clearInterval (w : World) : World :=
  mkWorld (ui w) (item w) (io_fails w) (clock w) None (log w).

Definition setItem (v : json) (w : World) : World :=
  mkWorld (ui w) (Some (Wellformed v)) (io_fails w) (clock w) (interval w) (log w).

Definition removeItem (w : World) : World :=
  mkWorld (ui w) None (io_fails w) (clock w) (interval w) (log w).

(** The body of the timer [useEffect]: an interval is installed exactly when
    [isPlaying && currentStep]. *)
Definition timerEffect (now : Z) (s : State) : option Interval :=
  if isPlaying s then
    match currentStep s with
    | Some step =>
        Some (Interval.mk now (AlarmStep.duration step) step (currentSeries s))
    | None => None
    end
  else None.

(** The effect's dependency array [[isPlaying, currentStep, currentSeries]]. *)
Definition deps (s : State) : bool * option AlarmStep * option AlarmSeries :=
  (isPlaying s, currentStep s, currentSeries s).

(** A batch of [set...] calls followed by the render they cause.  React
    re-runs the timer effect (cleanup, then body) when a dependency is a
    different value or object than at the previous render: [fresh] says that
    the batch stored a newly allocated object in a dependency; otherwise the
    cells are compared, which stands for comparing the objects wherever two
    distinct objects differ in a field, as the steps of a series with
    pairwise distinct ids do. *)
Definition update (fresh : bool) (f : State -> State) (w : World) : World :=
  let s' := f (ui w) in
  mkWorld s' (item w) (io_fails w) (clock w)
          (if fresh || negb (bool_decide (deps (ui w) = deps s'))
           then timerEffect (clock w) s' else interval w)
          (log w).

(** ** Series store *)

(** The two statements of every [catch] block. *)
Definition catch (console alert : string) (w : World) : World :=
  emit (Alert "Error" alert) (emit (ConsoleError console) w).

(** [loadSeries]: [AsyncStorage.getItem], then [JSON.parse] and [setSeries]
    when the text is truthy.  These are the handler's own statements; the
    render that [setSeries] causes is not among them, and goes through on
    the values that [renderable] describes. *)
Definition loadSeries (w : World) : World :=
  if io_fails w then
    catch "Error loading series:" "Failed to load series. Please restart the app." w
  else
    match item w with
    | None | Some EmptyText => w
    | Some Malformed =>
        catch "Error loading series:" "Failed to load series. Please restart the app." w
    | Some (Wellformed parsed) => update false (setSeries parsed) w
    end.

(** [saveSeries]: [AsyncStorage.setItem], then [setSeries]. *)
Definition saveSeries (newSeries : json) (w : World) : World :=
  if io_fails w then
    catch "Error saving series:" "Failed to save series. Please try again." w
  else update false (setSeries newSeries) (setItem newSeries w).

(** [clearAllSeries] *)
Definition clearAllSeries (w : World) : World :=
  if io_fails w then
    catch "Error clearing series:" "Failed to clear series. Please try again." w
  else
    update false
      (fun s => setIsEditing false (setCurrentSeries None (setSeries (JArr []) s)))
      (removeItem w).

(** [s.id] for an element [s] of the [series] array: [None] when reading the
    property throws (on [null]), otherwise the property's value, if any. *)
Definition element_id (s : json) : option (option json) :=
  match s with
  | JNull => None
  | JObj fs => Some (prop "id" fs)
  | _ => Some None
  end.

(** [s.id === x] once [s.id] has been read. *)
Definition id_is (x : string) (v : option json) : bool :=
  match v with
  | Some (JStr i) => str_eq i x
  | _ => false
  end.

(** [series.filter(s => s.id !== seriesId)]; [None] when it throws, that is
    when [series] is not an array or holds a [null]. *)
Definition filter_out (seriesId : string) (series : json) : option json :=
  match series with
  | JArr xs =>
      match mapM element_id xs with
      | Some _ =>
          Some (JArr (List.filter
                        (fun s => match element_id s with
                                  | Some v => negb (id_is seriesId v)
                                  | None => true
                                  end) xs))
      | None => None
      end
  | _ => None
  end.

(** [series.map(s => s.id === id ? updated : s)]; [None] when it throws. *)
Definition replace_by_id (id : string) (updated : json) (series : json) : option json :=
  match series with
  | JArr xs =>
      match mapM element_id xs with
      | Some _ =>
          Some (JArr (map (fun s => match element_id s with
                                    | Some v => if id_is id v then updated else s
                                    | None => s
                                    end) xs))
      | None => None
      end
  | _ => None
  end.

(** [handleDeleteSeries]: the state is updated first, the storage written
    after. *)
Definition handleDeleteSeries (seriesId : string) (w : World) : World :=
  match filter_out seriesId (series (ui w)) with
  | None => catch "Error deleting series:" "Failed to delete series. Please try again." w
  | Some updatedSeries =>
      let w1 :=
        update false
          (fun s => setCurrentSeries None (setIsEditing false (setSeries updatedSeries s)))
          w in
      if io_fails w1 then
        catch "Error deleting series:" "Failed to delete series. Please try again." w1
      else setItem updatedSeries w1
  end.

(** ** Series editor *)

(** [handleEditSeries] *)
Definition handleEditSeries (s : AlarmSeries) (w : World) : World :=
  update false (fun st => setModalVisible true (setCurrentSeries (Some s) st)) w.

(** The series-name input's [onChangeText]. *)
Definition seriesNameInput_onChangeText (text : string) (w : World) : World :=
  match currentSeries (ui w) with
  | None => w
  | Some cs =>
      update true
        (setCurrentSeries
           (Some (AlarmSeries.mk (AlarmSeries.id cs) text (AlarmSeries.steps cs))))
        w
  end.

(** [handleAddStep] *)
Definition handleAddStep (w : World) : World :=
  match currentSeries (ui w) with
  | None => w
  | Some cs =>
      let newStep :=
        {| AlarmStep.id := toString (clock w);
           AlarmStep.duration := 60000;
           AlarmStep.name :=
             "Step " +:+ toString (Z.of_nat (length (AlarmSeries.steps cs)) + 1) |} in
      update true
        (setCurrentSeries
           (Some (AlarmSeries.mk (AlarmSeries.id cs) (AlarmSeries.name cs)
                                 (AlarmSeries.steps cs ++ [newStep]))))
        w
  end.

(** [handleUpdateStep] *)
Definition handleUpdateStep (stepId : string) (updates : PartialAlarmStep)
    (w : World) : World :=
  match currentSeries (ui w) with
  | None => w
  | Some cs =>
      update true
        (setCurrentSeries
           (Some (AlarmSeries.mk (AlarmSeries.id cs) (AlarmSeries.name cs)
                    (map (fun step =>
                            if str_eq (AlarmStep.id step) stepId
                            then spread step updates else step)
                         (AlarmSeries.steps cs)))))
        w
  end.

(** [handleReorderSteps] *)
Definition handleReorderSteps (steps : list AlarmStep) (w : World) : World :=
  match currentSeries (ui w) with
  | None => w
  | Some cs =>
      update true
        (setCurrentSeries
           (Some (AlarmSeries.mk (AlarmSeries.id cs) (AlarmSeries.name cs) steps)))
        w
  end.

(** The trash button of a step row ([renderStepItem]): removes the step from
    the draft, then writes the collection with the draft put in place. *)
Definition deleteStepButton_onPress (item : AlarmStep) (w : World) : World :=
  match currentSeries (ui w) with
  | None => w
  | Some cs =>
      let updatedSteps :=
        List.filter (fun s => negb (str_eq (AlarmStep.id s) (AlarmStep.id item)))
                    (AlarmSeries.steps cs) in
      let updatedSeries :=
        AlarmSeries.mk (AlarmSeries.id cs) (AlarmSeries.name cs) updatedSteps in
      let w1 := update true (setCurrentSeries (Some updatedSeries)) w in
      match replace_by_id (AlarmSeries.id cs) (series_to_json updatedSeries)
                          (series (ui w)) with
      | Some updatedSeriesList => saveSeries updatedSeriesList w1
      | None => w1
      end
  end.

(** [parseInt(text) || 0], from the result of [parseInt] ([None] is NaN). *)
Definition or_zero (parsed : option Z) : Z := default 0 parsed.

(** The minutes input of a step row: [onChangeText]. *)
Definition minutesInput_onChangeText (item : AlarmStep) (parsed : option Z)
    (w : World) : World :=
  let minutes := or_zero parsed in
  handleUpdateStep (AlarmStep.id item)
    (PartialAlarmStep.mk None (Some (minutes * 60000)) None) w.

(** The seconds input of a step row: [onChangeText]. *)
Definition secondsInput_onChangeText (item : AlarmStep) (parsed : option Z)
    (w : World) : World :=
  let seconds := or_zero parsed in
  let minutes := AlarmStep.duration item / 60000 in
  handleUpdateStep (AlarmStep.id item)
    (PartialAlarmStep.mk None (Some (minutes * 60000 + seconds * 1000)) None) w.

(** ** Playback engine *)

(** [playAlarm]: the haptic notification.  (Its repetition half a second
    later belongs to the same call.) *)
Definition playAlarm (during : AlarmStep) (w : World) : World :=
  emit (Haptic during) w.

(** [handlePlaySeries] *)
Definition handlePlaySeries (s : AlarmSeries) (w : World) : World :=
  match AlarmSeries.steps s with
  | [] => emit (Alert "Error" "Please add steps to the series first") w
  | first :: _ =>
      update false
        (fun st =>
           setIsPlaying true
             (setRemainingTime (AlarmStep.duration first)
                (setCurrentStep (Some first) (setCurrentSeries (Some s) st))))
        w
  end.

(** [handleStopSeries] *)
Definition handleStopSeries (w : World) : World :=
  update false
    (fun st => setRemainingTime 0 (setCurrentStep None (setIsPlaying false st))) w.

(** [currentSeries?.steps] as seen by the interval's closure. *)
Definition closure_steps (iv : Interval) : option (list AlarmStep) :=
  AlarmSeries.steps <$> Interval.currentSeries iv.

(** The completion alert of the interval callback. *)
Definition seriesComplete : Event :=
  Alert "Series Complete" "All steps have been completed!".

(** The callback of [setInterval(..., 16)], run at the current [clock]. *)
Definition intervalCallback (w : World) : World :=
  match interval w with
  | None => w
  | Some iv =>
      let elapsed := clock w - Interval.startTime iv in
      let newRemaining := Z.max 0 (Interval.duration iv - elapsed) in
      if newRemaining <=? 0 then
        let w1 := playAlarm (Interval.currentStep iv) (clearInterval w) in
        let currentIndex :=
          match closure_steps iv with
          | Some steps =>
              findIndex (fun step => str_eq (AlarmStep.id step)
                                            (AlarmStep.id (Interval.currentStep iv)))
                        steps
          | None => -1
          end in
        let len :=
          match closure_steps iv with
          | Some steps => Z.of_nat (length steps)
          | None => 0
          end in
        if (0 <=? currentIndex) && (currentIndex <? len - 1) then
          match default [] (closure_steps iv) !! Z.to_nat (currentIndex + 1) with
          | Some nextStep =>
              update false
                (fun st => setRemainingTime (AlarmStep.duration nextStep)
                             (setCurrentStep (Some nextStep) st))
                w1
          | None => w1
          end
        else
          emit seriesComplete (handleStopSeries w1)
      else update false (setRemainingTime newRemaining) w
  end.

(** One delivery of the interval callback, [delta] milliseconds after the
    previous event. *)
Definition tick (delta : Z) (w : World) : World :=
  intervalCallback (advance delta w).

(** A schedule of deliveries, given by the delays between them. *)
Fixpoint run (delays : list Z) (w : World) : World :=
  match delays with
  | [] => w
  | delta :: rest => run rest (tick delta w)
  end.

(** The number of deliveries after which a playback of [l] is over, whatever
    the (positive) delays between them: a step of [d] milliseconds outlives
    at most [max 1 d] deliveries. *)
Definition worst_case_ticks (l : list AlarmStep) : Z :=
  fold_right (fun step acc => Z.max 1 (AlarmStep.duration step) + acc) 0 l.

(** ** The editor's commands

    The spec's [rename], [addStep], [removeStep], [updateStep] and
    [reorderSteps], each with the handler that implements it. *)
Inductive EditorOp : Type :=
  | Rename (text : string)
  | AddStep
  | RemoveStep (item : AlarmStep)
  | UpdateStep (stepId : string) (updates : PartialAlarmStep)
  | ReorderSteps (steps : list AlarmStep).

Definition edit (op : EditorOp) : World -> World :=
  match op with
  | Rename text => seriesNameInput_onChangeText text
  | AddStep => handleAddStep
  | RemoveStep item => deleteStepButton_onPress item
  | UpdateStep stepId updates => handleUpdateStep stepId updates
  | ReorderSteps steps => handleReorderSteps steps
  end.

(** [currentSeries?.steps || []], the steps of the draft. *)
Definition draft_steps (w : World) : list AlarmStep :=
  match currentSeries (ui w) with
  | Some cs => AlarmSeries.steps cs
  | None => []
  end.

Definition step_ids (w : World) : list string :=
  map AlarmStep.id (draft_steps w).

(** The step-duration invariant of the data model. *)
Definition durations_ok (l : list AlarmStep) : Prop :=
  Forall (fun step => 0 <= AlarmStep.duration step) l.

(** The steps that the pending interval will walk through. *)
Definition session_steps (w : World) : option (list AlarmStep) :=
  interval w ≫= closure_steps.

(** ** Predicates on worlds *)

(** The session of series [s] is on step number [k], which began at [t0];
    since [play], on top of the earlier log [log0], it has fired once for
    each earlier step. *)
Definition playing_at (s : AlarmSeries) (log0 : list Event)
    (k : nat) (step : AlarmStep) (t0 : Z) (w : World) : Prop :=
  AlarmSeries.steps s !! k = Some step /\
  isPlaying (ui w) = true /\
  currentStep (ui w) = Some step /\
  currentSeries (ui w) = Some s /\
  interval w = Some (Interval.mk t0 (AlarmStep.duration step) step (Some s)) /\
  log w = log0 ++ map Haptic (take k (AlarmSeries.steps s)).

(** The session of series [s] is over: every step has fired, then the
    completion. *)
Definition completed (s : AlarmSeries) (log0 : list Event) (w : World) : Prop :=
  isPlaying (ui w) = false /\
  currentStep (ui w) = None /\
  remainingTime (ui w) = 0 /\
  interval w = None /\
  log w = log0 ++ map Haptic (AlarmSeries.steps s) ++ [seriesComplete].


(** ** The rest of the screen *)

(** The characters that [String.prototype.padStart] puts in front: [k] of
    them, taken from [padString] again and again. *)
Fixpoint pad_chars (k : nat) (padString rest : string) : string :=
  match k with
  | O => EmptyString
  | S k' =>
      match rest with
      | String c rest' => String c (pad_chars k' padString rest')
      | EmptyString =>
          match padString with
          | String c pad' => String c (pad_chars k' padString pad')
          | EmptyString => EmptyString
          end
      end
  end.

(** [String.prototype.padStart(targetLength, padString)] *)
Definition padStart (targetLength : nat) (padString s : string) : string :=
  if (targetLength <=? String.length s)%nat then s
  else pad_chars (targetLength - String.length s) padString padString +:+ s.

(** [formatTime]: [Math.floor(ms / 60000)] is the floored quotient, [%] the
    remainder that takes the sign of the dividend. *)
Definition formatTime (ms : Z) : string :=
  let minutes := ms / 60000 in
  let seconds := Z.rem ms 60000 / 1000 in
  padStart 2 "0" (toString minutes) +:+ ":" +:+ padStart 2 "0" (toString seconds).

(** The total shown on a series card:
    [series.steps.reduce((total, step) => total + step.duration, 0)]. *)
Definition totalDuration (s : AlarmSeries) : Z :=
  fold_left (fun total step => total + AlarmStep.duration step)
            (AlarmSeries.steps s) 0.

(** The numbers shown in the two duration inputs of a step row (before
    [toString]). *)
Definition minutesShown (item : AlarmStep) : Z := AlarmStep.duration item / 60000.
Definition secondsShown (item : AlarmStep) : Z :=
  Z.rem (AlarmStep.duration item) 60000 / 1000.

(** The array spread [[...series]]: the elements of an array, the characters
    of a string; [None] when the value is not iterable and the spread
    throws. *)
Definition spread_elements (v : json) : option (list json) :=
  match v with
  | JArr xs => Some xs
  | JStr s =>
      Some (map (fun c => JStr (String c EmptyString)) (String.list_ascii_of_string s))
  | _ => None
  end.

(** [xs.findIndex(s => s.id === id)] on array elements: [None] when the
    callback throws, that is when a [null] comes before the first match. *)
Fixpoint findIndex_by_id (id : string) (xs : list json) : option Z :=
  match xs with
  | [] => Some (-1)
  | x :: rest =>
      match element_id x with
      | None => None
      | Some v =>
          if id_is id v then Some 0
          else match findIndex_by_id id rest with
               | Some i => Some (if i <? 0 then -1 else i + 1)
               | None => None
               end
      end
  end.

(** [handleCreateNewSeries]: everything is inside the [try]. *)
Definition handleCreateNewSeries (w : World) : World :=
  let newSeries := AlarmSeries.mk (toString (clock w)) "New Series" [] in
  match spread_elements (series (ui w)) with
  | None =>
      catch "Error creating new series:"
            "Failed to create new series. Please try again." w
  | Some xs =>
      let updatedSeries := JArr (xs ++ [series_to_json newSeries]) in
      if io_fails w then
        catch "Error creating new series:"
              "Failed to create new series. Please try again." w
      else
        update true
          (fun s => setIsEditing true
                      (setCurrentSeries (Some newSeries) (setSeries updatedSeries s)))
          (setItem updatedSeries w)
  end.

(** [handleSaveSeries]: nothing is caught here, so a throwing spread or
    [findIndex] ends the handler before any cell is set. *)
Definition handleSaveSeries (w : World) : World :=
  match currentSeries (ui w) with
  | None => w
  | Some cs =>
      match spread_elements (series (ui w)) with
      | None => w
      | Some xs =>
          match findIndex_by_id (AlarmSeries.id cs) xs with
          | None => w
          | Some existingIndex =>
              let updatedSeries :=
                if 0 <=? existingIndex
                then <[Z.to_nat existingIndex := series_to_json cs]> xs
                else xs ++ [series_to_json cs] in
              update false (setModalVisible false) (saveSeries (JArr updatedSeries) w)
          end
      end
  end.

(** The Cancel button of the editor, and the modal's [onRequestClose]. *)
Definition cancelButton_onPress (w : World) : World :=
  update false (setModalVisible false) w.

(** ** What can happen to the screen

    The user's gestures, the deliveries of the interval callback, and the
    storage becoming unavailable or available again. *)
Inductive Action : Type :=
  | Mount
  | CreateNewSeries
  | EditSeries (s : AlarmSeries)
  | Edit (op : EditorOp)
  | MinutesInput (item : AlarmStep) (parsed : option Z)
  | SecondsInput (item : AlarmStep) (parsed : option Z)
  | SaveSeries
  | Cancel
  | DeleteSeries (seriesId : string)
  | ClearAll
  | Play (s : AlarmSeries)
  | Stop
  | Tick (delta : Z)
  | Storage (fails : bool).

Definition act (a : Action) (w : World) : World :=
  match a with
  | Mount => loadSeries w
  | CreateNewSeries => handleCreateNewSeries w
  | EditSeries s => handleEditSeries s w
  | Edit op => edit op w
  | MinutesInput item parsed => minutesInput_onChangeText item parsed w
  | SecondsInput item parsed => secondsInput_onChangeText item parsed w
  | SaveSeries => handleSaveSeries w
  | Cancel => cancelButton_onPress w
  | DeleteSeries seriesId => handleDeleteSeries seriesId w
  | ClearAll => clearAllSeries w
  | Play s => handlePlaySeries s w
  | Stop => handleStopSeries w
  | Tick delta => tick delta w
  | Storage fails =>
      mkWorld (ui w) (item w) fails (clock w) (interval w) (log w)
  end.

(** A history of the screen, oldest action first; each action is taken when
    the handler of the one before has run to its end, its awaits
    resolved. *)
Definition acts (l : list Action) (w : World) : World :=
  fold_left (fun w a => act a w) l w.

(** The sum of the durations of a list of steps. *)
Definition sum_durations (l : list AlarmStep) : Z :=
  fold_right (fun step acc => AlarmStep.duration step + acc) 0 l.

(** The sum of a schedule's delays: the time it takes. *)
Definition time_taken (delays : list Z) : Z := fold_right Z.add 0 delays.

(** The pending interval, if any, belongs to the cells as they are: there
    is one only while playing, and its closure holds the current step and
    the current series. *)
Definition session_ok (w : World) : Prop :=
  (isPlaying (ui w) = true <-> currentStep (ui w) <> None) /\
  (isPlaying (ui w) = false -> remainingTime (ui w) = 0) /\
  match interval w with
  | Some iv =>
      isPlaying (ui w) = true /\
      currentStep (ui w) = Some (Interval.currentStep iv) /\
      Interval.currentSeries iv = currentSeries (ui w) /\
      Interval.duration iv = AlarmStep.duration (Interval.currentStep iv)
  | None => True
  end.

(** The value is a collection of Series records. *)
Definition valid_collection (v : json) : Prop := is_Some (json_to_collection v).

(** The collection in memory and the persisted one are collections of
    Series records. *)
Definition store_valid (w : World) : Prop :=
  valid_collection (series (ui w)) /\
  match item w with
  | Some (Wellformed v) => valid_collection v
  | Some EmptyText | Some Malformed => False
  | None => True
  end.

(** The collection in memory is the persisted one. *)
Definition in_sync (w : World) : Prop :=
  match item w with
  | Some (Wellformed v) => series (ui w) = v
  | Some EmptyText | Some Malformed => False
  | None => series (ui w) = JArr []
  end.

(** ** Where the integers are the program's numbers

    The program's numbers are doubles.  An integer is a double exactly, and
    the products, sums and floored quotients that the handlers take of
    integers are exact, as long as every value stays within
    [Number.MAX_SAFE_INTEGER]; beyond it the program rounds, and overflows
    to Infinity, which [JSON.stringify] writes as [null]. *)
Definition MAX_SAFE_INTEGER : Z := 2 ^ 53 - 1.

Definition safe (n : Z) : Prop := - MAX_SAFE_INTEGER <= n <= MAX_SAFE_INTEGER.

Definition safe_steps (l : list AlarmStep) : Prop :=
  Forall (fun step => safe (AlarmStep.duration step)) l.

(** The numbers that an action brings in, and the ones its handler computes
    from them, are within the safe range. *)
Definition exact_action (a : Action) : Prop :=
  match a with
  | EditSeries s | Play s => safe_steps (AlarmSeries.steps s)
  | Edit (RemoveStep removed) => safe (AlarmStep.duration removed)
  | Edit (UpdateStep _ updates) =>
      forall d, PartialAlarmStep.duration updates = Some d -> safe d
  | Edit (ReorderSteps steps) => safe_steps steps
  | MinutesInput shown parsed =>
      safe (AlarmStep.duration shown) /\ safe (or_zero parsed * 60000)
  | SecondsInput shown parsed =>
      safe (AlarmStep.duration shown) /\ safe (or_zero parsed * 1000) /\
      safe (AlarmStep.duration shown / 60000 * 60000 + or_zero parsed * 1000)
  | Tick delta => safe delta
  | _ => True
  end.

(** ** What the list of series can render

    The render of the collection (the [series.map] of the screen) reads, of
    each element, [id] as the key, [name] as a text child, [steps.length],
    and [steps.reduce] over [step.duration]; it throws on a collection that
    is not an array, on an element or a step that is [null], on [steps]
    that is not an array, and on an object given as a text child.  The
    values below are a class on which none of this can happen: an array of
    objects whose [id] and [name] are absent or primitive and whose [steps]
    is an array of objects with an absent or primitive [duration]. *)
Definition primitive_or_absent (v : option json) : bool :=
  match v with
  | None | Some JNull | Some (JBool _) | Some (JNum _) | Some (JStr _) => true
  | Some (JArr _) | Some (JObj _) => false
  end.

Definition renderable_step (x : json) : bool :=
  match x with
  | JObj fs => primitive_or_absent (prop "duration" fs)
  | _ => false
  end.

Definition renderable_series (x : json) : bool :=
  match x with
  | JObj fs =>
      primitive_or_absent (prop "id" fs) && primitive_or_absent (prop "name" fs)
      && match prop "steps" fs with
         | Some (JArr ss) => forallb renderable_step ss
         | _ => false
         end
  | _ => false
  end.

Definition renderable (v : json) : bool :=
  match v with
  | JArr xs => forallb renderable_series xs
  | _ => false
  end.

(** * Properties *)

(** ** Lists and strings *)

Lemma str_eq_true a b : str_eq a b = true <-> a = b.
Proof. apply String.eqb_eq. Qed.

Lemma str_eq_false a b : str_eq a b = false <-> a <> b.
Proof. apply String.eqb_neq. Qed.

Lemma findIndex_range {A} (p : A -> bool) l :
  -1 <= findIndex p l < Z.of_nat (length l).
Proof.
  induction l as [|x l IH]; simpl; [lia|].
  destruct (p x); [lia|].
  destruct (Z.ltb_spec (findIndex p l) 0); lia.
Qed.

Lemma findIndex_first {A} (p : A -> bool) l (k : nat) x :
  l !! k = Some x -> p x = true ->
  (forall (j : nat) y, (j < k)%nat -> l !! j = Some y -> p y = false) ->
  findIndex p l = Z.of_nat k.
Proof.
  revert k. induction l as [|a l IH]; intros k Hk Hp Hlt; [done|].
  destruct k as [|k]; simpl in *.
  - injection Hk as ->. by rewrite Hp.
  - rewrite (Hlt 0%nat a) by (done || lia).
    rewrite (IH k Hk Hp).
    + destruct (Z.ltb_spec (Z.of_nat k) 0); lia.
    + intros j y Hj Hy. apply (Hlt (S j) y); [lia|done].
Qed.

(** With unique step ids, looking a step up by its id finds its position. *)
Lemma findIndex_NoDup_id (l : list AlarmStep) (k : nat) x :
  NoDup (map AlarmStep.id l) -> l !! k = Some x ->
  findIndex (fun step => str_eq (AlarmStep.id step) (AlarmStep.id x)) l = Z.of_nat k.
Proof.
  intros Hnd Hk. apply (findIndex_first _ _ _ x Hk).
  - by apply str_eq_true.
  - intros j y Hj Hy. apply str_eq_false. intros Heq.
    assert (j = k); [|lia].
    eapply NoDup_lookup; [exact Hnd| |].
    + by rewrite list_lookup_fmap, Hy.
    + by rewrite list_lookup_fmap, Hk; simpl; rewrite Heq.
Qed.

Lemma worst_case_ticks_pos l : 0 <= worst_case_ticks l.
Proof. induction l; simpl; lia. Qed.

Lemma worst_case_ticks_drop (l : list AlarmStep) (k : nat) x :
  l !! k = Some x ->
  worst_case_ticks (drop k l) =
  Z.max 1 (AlarmStep.duration x) + worst_case_ticks (drop (S k) l).
Proof.
  revert k. induction l as [|a l IH]; intros [|k] Hk; try done.
  - by injection Hk as ->.
  - simpl. by apply IH.
Qed.

(** ** Playback: one run of a series *)

Section Playback.
Variable s : AlarmSeries.
Variable log0 : list Event.
Hypothesis ids_unique : NoDup (map AlarmStep.id (AlarmSeries.steps s)).

Lemma tick_waiting k step t0 w delta :
  playing_at s log0 k step t0 w ->
  0 < AlarmStep.duration step - (clock w + delta - t0) ->
  playing_at s log0 k step t0 (tick delta w) /\
  clock (tick delta w) = clock w + delta /\
  remainingTime (ui (tick delta w)) =
    AlarmStep.duration step - (clock w + delta - t0).
Proof.
  intros (Hk & Hp & Hs & Hc & Hi & Hl) Hlt.
  unfold tick, intervalCallback. cbn [advance interval clock].
  rewrite Hi. cbn [Interval.startTime Interval.duration].
  destruct (Z.leb_spec (Z.max 0 (AlarmStep.duration step - (clock w + delta - t0))) 0);
    [lia|].
  unfold update, playing_at. cbn.
  rewrite bool_decide_eq_true_2 by done. cbn.
  repeat split; try done. lia.
Qed.

Lemma tick_next k step t0 w delta next :
  playing_at s log0 k step t0 w ->
  AlarmStep.duration step - (clock w + delta - t0) <= 0 ->
  AlarmSeries.steps s !! S k = Some next ->
  playing_at s log0 (S k) next (clock w + delta) (tick delta w) /\
  clock (tick delta w) = clock w + delta /\
  remainingTime (ui (tick delta w)) = AlarmStep.duration next.
Proof.
  intros (Hk & Hp & Hs & Hc & Hi & Hl) Hle Hn.
  assert (Hlen : (S k < length (AlarmSeries.steps s))%nat)
    by (by eapply lookup_lt_Some).
  assert (Hne : step <> next).
  { intros ->. assert (k = S k); [|lia].
    eapply NoDup_lookup; [exact ids_unique| |];
      rewrite list_lookup_fmap; [by rewrite Hk | by rewrite Hn]. }
  unfold tick, intervalCallback. cbn [advance interval clock].
  rewrite Hi. cbn [Interval.startTime Interval.duration Interval.currentStep].
  destruct (Z.leb_spec (Z.max 0 (AlarmStep.duration step - (clock w + delta - t0))) 0);
    [|lia].
  unfold closure_steps. cbn [Interval.currentSeries fmap option_fmap option_map default].
  rewrite (findIndex_NoDup_id _ k step ids_unique Hk).
  destruct (Z.leb_spec 0 (Z.of_nat k)); [|lia].
  destruct (Z.ltb_spec (Z.of_nat k) (Z.of_nat (length (AlarmSeries.steps s)) - 1));
    [|lia].
  cbn [andb]. unfold id.
  replace (Z.to_nat (Z.of_nat k + 1)) with (S k) by lia.
  rewrite Hn.
  unfold update, playing_at, playAlarm, clearInterval, emit. cbn.
  unfold deps, timerEffect. cbn. rewrite Hp, Hs, Hc.
  rewrite bool_decide_eq_false_2 by congruence. cbn.
  repeat split; try done.
  rewrite Hl, (take_S_r _ _ _ Hk), map_app, <- app_assoc. done.
Qed.

Lemma tick_last k step t0 w delta :
  playing_at s log0 k step t0 w ->
  AlarmStep.duration step - (clock w + delta - t0) <= 0 ->
  AlarmSeries.steps s !! S k = None ->
  completed s log0 (tick delta w).
Proof.
  intros (Hk & Hp & Hs & Hc & Hi & Hl) Hle Hn.
  assert (Hlen : (length (AlarmSeries.steps s) = S k)%nat).
  { apply lookup_ge_None in Hn. apply lookup_lt_Some in Hk. lia. }
  unfold tick, intervalCallback. cbn [advance interval clock].
  rewrite Hi. cbn [Interval.startTime Interval.duration Interval.currentStep].
  destruct (Z.leb_spec (Z.max 0 (AlarmStep.duration step - (clock w + delta - t0))) 0);
    [|lia].
  unfold closure_steps. cbn [Interval.currentSeries fmap option_fmap option_map default].
  rewrite (findIndex_NoDup_id _ k step ids_unique Hk).
  destruct (Z.ltb_spec (Z.of_nat k) (Z.of_nat (length (AlarmSeries.steps s)) - 1));
    [lia|].
  rewrite andb_false_r.
  unfold handleStopSeries, update, completed, playAlarm, clearInterval, emit. cbn.
  repeat split; try done; [by case_match|].
  rewrite Hl, <- !app_assoc. f_equal. unfold seriesComplete.
  change (?a :: [?b]) with ([a] ++ [b]). rewrite app_assoc. f_equal.
  rewrite <- (take_ge (AlarmSeries.steps s) (S k)) at 2 by lia.
  by rewrite (take_S_r _ _ _ Hk), map_app.
Qed.

Lemma run_completed delays w : completed s log0 w -> completed s log0 (run delays w).
Proof.
  revert w. induction delays as [|d ds IH]; intros w Hw; [done|].
  simpl. apply IH. destruct Hw as (? & ? & ? & Hi & ?).
  unfold tick, intervalCallback. cbn [advance interval]. rewrite Hi.
  by unfold completed.
Qed.

(** Enough deliveries, each later than the one before, end the session. *)
Lemma run_to_completion delays : forall k step t0 w,
  playing_at s log0 k step t0 w ->
  Forall (fun delta => 0 < delta) delays ->
  Z.max 1 (AlarmStep.duration step - (clock w - t0))
    + worst_case_ticks (drop (S k) (AlarmSeries.steps s))
    <= Z.of_nat (length delays) ->
  completed s log0 (run delays w).
Proof.
  induction delays as [|d ds IH]; intros k step t0 w Hw Hpos Hlen.
  - pose proof (worst_case_ticks_pos (drop (S k) (AlarmSeries.steps s))).
    simpl in Hlen. lia.
  - apply Forall_cons in Hpos as [Hd Hpos]. cbn [run].
    destruct (Z.lt_ge_cases 0 (AlarmStep.duration step - (clock w + d - t0)))
      as [Hwait|Hfire].
    + destruct (tick_waiting k step t0 w d Hw Hwait) as (Hw' & Hc' & _).
      apply (IH k step t0 _ Hw' Hpos). rewrite Hc'.
      rewrite length_cons in Hlen. lia.
    + destruct (AlarmSeries.steps s !! S k) as [next|] eqn:Hn.
      * destruct (tick_next k step t0 w d next Hw Hfire Hn) as (Hw' & Hc' & _).
        apply (IH (S k) next _ _ Hw' Hpos). rewrite Hc'.
        rewrite (worst_case_ticks_drop _ _ _ Hn) in Hlen.
        rewrite length_cons in Hlen. lia.
      * apply run_completed. by eapply tick_last.
Qed.
End Playback.

(** Whatever the schedule, the session is on some step, having fired once
    for each earlier step and for nothing else, or it is over. *)
Lemma run_in_order s log0 delays :
  NoDup (map AlarmStep.id (AlarmSeries.steps s)) ->
  forall k step t0 w,
  playing_at s log0 k step t0 w ->
  (exists k' step' t0', playing_at s log0 k' step' t0' (run delays w))
  \/ completed s log0 (run delays w).
Proof.
  intros Hnd. induction delays as [|d ds IH]; intros k step t0 w Hw.
  - left. by exists k, step, t0.
  - cbn [run].
    destruct (Z.lt_ge_cases 0 (AlarmStep.duration step - (clock w + d - t0)))
      as [Hwait|Hfire].
    + destruct (tick_waiting s log0 k step t0 w d Hw Hwait) as (Hw' & _).
      by apply (IH k step t0).
    + destruct (AlarmSeries.steps s !! S k) as [next|] eqn:Hn.
      * destruct (tick_next s log0 Hnd k step t0 w d next Hw Hfire Hn) as (Hw' & _).
        by apply (IH (S k) next (clock w + d)).
      * right. apply run_completed. by eapply tick_last.
Qed.

Lemma handlePlaySeries_starts s w0 first rest :
  AlarmSeries.steps s = first :: rest ->
  isPlaying (ui w0) = false ->
  playing_at s (log w0) 0 first (clock w0) (handlePlaySeries s w0) /\
  clock (handlePlaySeries s w0) = clock w0 /\
  remainingTime (ui (handlePlaySeries s w0)) = AlarmStep.duration first.
Proof.
  intros Hs Hidle. unfold handlePlaySeries, playing_at. rewrite Hs.
  unfold update, deps, timerEffect. cbn. rewrite Hidle.
  rewrite bool_decide_eq_false_2 by congruence. cbn.
  by rewrite app_nil_r.
Qed.

(** C1, as the code has it: from [play] on an idle engine, a series of
    N >= 1 steps with pairwise distinct step ids (the interval callback finds
    its place in the series by the id of the current step) fires its
    step-boundary notifications one per step and in step
    order, whatever the step durations (zero included) and the schedule of
    deliveries; once the deliveries are enough (each later than the one
    before), all N have fired, followed by exactly one completion, and the
    engine is idle again. *)
Theorem playback_fires_once_per_step_then_completes
    (s : AlarmSeries) (w0 : World) (delays : list Z) :
  AlarmSeries.steps s <> [] ->
  NoDup (map AlarmStep.id (AlarmSeries.steps s)) ->
  isPlaying (ui w0) = false ->
  let w := run delays (handlePlaySeries s w0) in
  ((exists k step t0,
      playing_at s (log w0) k step t0 w /\
      log w = log w0 ++ map Haptic (take k (AlarmSeries.steps s)))
   \/ completed s (log w0) w) /\
  (Forall (fun delta => 0 < delta) delays ->
   worst_case_ticks (AlarmSeries.steps s) <= Z.of_nat (length delays) ->
   log w = log w0 ++ map Haptic (AlarmSeries.steps s) ++ [seriesComplete] /\
   isPlaying (ui w) = false /\ currentStep (ui w) = None /\ interval w = None).
Proof.
  intros Hne Hnd Hidle w.
  assert (exists first rest, AlarmSeries.steps s = first :: rest) as (first & rest & Hs).
  { destruct (AlarmSeries.steps s) as [|first rest]; [done|by exists first, rest]. }
  destruct (handlePlaySeries_starts s w0 first rest Hs Hidle) as (Hstart & Hc & _).
  split.
  - destruct (run_in_order s (log w0) delays Hnd _ _ _ _ Hstart)
      as [(k & step & t0 & Hw)|Hdone].
    + left. exists k, step, t0. split; [done|].
      by destruct Hw as (_ & _ & _ & _ & _ & Hl).
    + by right.
  - intros Hpos Hlen.
    assert (Hdone : completed s (log w0) w).
    { apply (run_to_completion s (log w0) Hnd delays 0%nat first (clock w0));
        [done..|].
      rewrite Hc, Z.sub_diag, Z.sub_0_r.
      rewrite <- (worst_case_ticks_drop _ 0 first) by (by rewrite Hs).
      by rewrite drop_0. }
    by destruct Hdone as (? & ? & ? & ? & Hl).
Qed.

(** The theorem at a series whose two first steps last 0 ms, run on the
    16 ms interval. *)
Lemma playback_fires_once_per_step_then_completes_witness :
  let a := AlarmStep.mk "1" 0 "Warm-up" in
  let b := AlarmStep.mk "2" 0 "Ready" in
  let c := AlarmStep.mk "3" 48 "Go" in
  let s := AlarmSeries.mk "s" "Zeros" [a; b; c] in
  let w := run (replicate 50 16) (handlePlaySeries s (initialWorld 1000)) in
  log w = [Haptic a; Haptic b; Haptic c; seriesComplete] /\
  isPlaying (ui w) = false /\ currentStep (ui w) = None /\ interval w = None.
Proof.
  intros a b c s w.
  apply (playback_fires_once_per_step_then_completes s (initialWorld 1000)
           (replicate 50 16)).
  - done.
  - apply (bool_decide_unpack _). by vm_compute.
  - done.
  - repeat constructor.
  - vm_compute. discriminate.
Defined.

(** Outside the theorem's hypothesis: when two steps share an id, the
    interval of the second looks its id up, finds the first, and sets the
    second as the current step again; nothing changes, no interval is
    installed and the session neither advances nor completes. *)
Example duplicate_step_ids_stall :
  let a := AlarmStep.mk "1" 1000 "Work" in
  let a' := AlarmStep.mk "1" 1000 "Work again" in
  let s := AlarmSeries.mk "s" "Twice" [a; a'] in
  let w := run [1000; 1000] (handlePlaySeries s (initialWorld 0)) in
  log w = [Haptic a; Haptic a'] /\ isPlaying (ui w) = true /\
  currentStep (ui w) = Some a' /\ interval w = None /\
  run [1000; 1000; 1000] w = advance 3000 w.
Proof. by vm_compute. Qed.

(** ** Playback: the remaining time *)



Section RemainingTime.
Variable s : AlarmSeries.
Hypothesis durations_nonneg :
  Forall (fun step => 0 <= AlarmStep.duration step) (AlarmSeries.steps s).




End RemainingTime.



(** ** Playback: an empty series *)

(** C5: playing a series without steps is refused with the validation alert
    and nothing else happens: every state cell (playing flag, current step,
    remaining time, current series), the pending interval and the storage
    are as before, and the only thing logged is that alert, no haptic and no
    completion. *)
Theorem handlePlaySeries_empty (s : AlarmSeries) (w : World) :
  AlarmSeries.steps s = [] ->
  let w' := handlePlaySeries s w in
  ui w' = ui w /\ interval w' = interval w /\ item w' = item w /\
  clock w' = clock w /\
  log w' = log w ++ [Alert "Error" "Please add steps to the series first"].
Proof. intros Hs. unfold handlePlaySeries. by rewrite Hs. Qed.

Lemma handlePlaySeries_empty_witness :
  let s := AlarmSeries.mk "1700000000000" "New Series" [] in
  let w' := handlePlaySeries s (initialWorld 5) in
  ui w' = initialState /\ interval w' = None /\ item w' = None /\
  clock w' = 5 /\
  log w' = [Alert "Error" "Please add steps to the series first"].
Proof.
  intros s w'.
  apply (handlePlaySeries_empty s (initialWorld 5)). reflexivity.
Defined.

(** ** Series store *)

(** C6: [saveSeries] either fails as a whole or succeeds as a whole.  When
    the write is rejected the persisted text and the in-memory collection
    (indeed every state cell) are as before and the failure is alerted;
    when it is accepted the persisted text is that of the argument and the
    in-memory collection is the argument. *)
Theorem saveSeries_all_or_nothing (newSeries : json) (w : World) :
  let w' := saveSeries newSeries w in
  if io_fails w then
    item w' = item w /\ ui w' = ui w /\
    log w' = log w ++ [ConsoleError "Error saving series:";
                       Alert "Error" "Failed to save series. Please try again."]
  else
    item w' = Some (Wellformed newSeries) /\ series (ui w') = newSeries /\
    log w' = log w.
Proof.
  unfold saveSeries, catch, emit, update. destruct (io_fails w); cbn.
  - by rewrite <- app_assoc.
  - done.
Qed.

(** What was saved is what the next load installs. *)
Lemma loadSeries_saveSeries (newSeries : json) (w : World) :
  io_fails w = false ->
  series (ui (loadSeries (saveSeries newSeries w))) = newSeries.
Proof. intros Hio. unfold loadSeries, saveSeries. rewrite Hio. cbn. by rewrite Hio. Qed.

(** Collections of Series records are among the values that the list
    renders. *)
Lemma collection_to_json_renderable (l : list AlarmSeries) :
  renderable (collection_to_json l) = true.
Proof.
  unfold renderable, collection_to_json. apply forallb_forall.
  intros x Hx. apply in_map_iff in Hx as (sr & <- & _).
  cbn. apply forallb_forall. intros y Hy.
  by apply in_map_iff in Hy as (st & <- & _).
Qed.

(** C7, as the code has it: [loadSeries] leaves the collection as it is
    (empty at mount) when nothing, or the empty text, is persisted; when the
    read fails or the text is not JSON it leaves every state cell as it is
    and alerts; and every text that is JSON, and whose value the list can
    render, is installed as the collection as it is, valid Series records or
    not, without any alert. *)
Theorem loadSeries_cases (w : World) :
  let w' := loadSeries w in
  let failed :=
    ui w' = ui w /\ item w' = item w /\
    log w' = log w ++ [ConsoleError "Error loading series:";
                       Alert "Error" "Failed to load series. Please restart the app."] in
  if io_fails w then failed
  else
    match item w with
    | None | Some EmptyText => w' = w
    | Some Malformed => failed
    | Some (Wellformed v) =>
        renderable v = true ->
        series (ui w') = v /\ log w' = log w /\ item w' = item w
    end.
Proof.
  unfold loadSeries, catch, emit, update. destruct (io_fails w); cbn.
  - by rewrite <- app_assoc.
  - destruct (item w) as [[| |v]|]; cbn; try done. by rewrite <- app_assoc.
Qed.

(** The theorem at a persisted collection of one series. *)
Lemma loadSeries_cases_witness :
  let legs := AlarmSeries.mk "1" "Legs" [AlarmStep.mk "10" 60000 "Step 1"] in
  let w := mkWorld initialState (Some (Wellformed (collection_to_json [legs])))
                   false 0 None [] in
  series (ui (loadSeries w)) = collection_to_json [legs] /\
  log (loadSeries w) = [] /\
  item (loadSeries w) = Some (Wellformed (collection_to_json [legs])).
Proof.
  intros legs w. apply (loadSeries_cases w). reflexivity.
Defined.

(** At mount the collection is empty, and stays so in the first three
    cases. *)
Lemma loadSeries_at_mount (w : World) :
  ui w = initialState ->
  (io_fails w = true \/ item w = None \/ item w = Some EmptyText
   \/ item w = Some Malformed) ->
  series (ui (loadSeries w)) = JArr [].
Proof.
  intros Hui Hcase. unfold loadSeries, catch, emit.
  destruct (io_fails w); cbn; [by rewrite Hui|].
  destruct Hcase as [|[->|[->| ->]]]; try done; cbn; by rewrite Hui.
Qed.

(** A persisted array whose only element is an object with an empty [steps]
    and neither [id] nor [name] is not a collection of Series records; the
    list renders it (no key, no name, "0 steps", "00:00"), and [loadSeries]
    at mount makes it the collection and alerts nothing. *)
Lemma loadSeries_installs_invalid_records :
  let payload := JArr [JObj [("steps"%string, JArr [])]] in
  let w := mkWorld initialState (Some (Wellformed payload)) false 0 None [] in
  json_to_collection payload = None /\
  renderable payload = true /\
  series (ui (loadSeries w)) = payload /\
  series (ui (loadSeries w)) <> JArr [] /\
  log (loadSeries w) = [].
Proof. cbn. repeat split; try done. Qed.

(** ** Series editor: reordering *)

(** C8, as the code has it: [handleReorderSteps] validates nothing and
    never fails; with a draft open, the draft's steps become exactly the
    supplied sequence, whatever it is (in particular when it is a
    permutation of the draft's steps), its id and name stay, and nothing is
    alerted; without a draft nothing happens. *)
Theorem handleReorderSteps_replaces (steps : list AlarmStep) (w : World) :
  let w' := handleReorderSteps steps w in
  match currentSeries (ui w) with
  | Some cs =>
      currentSeries (ui w')
      = Some (AlarmSeries.mk (AlarmSeries.id cs) (AlarmSeries.name cs) steps) /\
      log w' = log w /\ series (ui w') = series (ui w) /\ item w' = item w
  | None => w' = w
  end.
Proof. unfold handleReorderSteps. by destruct (currentSeries (ui w)). Qed.

(** A sequence that repeats one step id and omits the other is accepted:
    the draft takes it and no error is raised. *)
Lemma handleReorderSteps_accepts_duplicates :
  let a := AlarmStep.mk "1" 60000 "Step 1" in
  let b := AlarmStep.mk "2" 60000 "Step 2" in
  let draft := AlarmSeries.mk "s" "New Series" [a; b] in
  let w := handleEditSeries draft (initialWorld 0) in
  let w' := handleReorderSteps [a; a] w in
  currentSeries (ui w) = Some draft /\
  currentSeries (ui w') = Some (AlarmSeries.mk "s" "New Series" [a; a]) /\
  currentSeries (ui w') <> currentSeries (ui w) /\
  log w' = [].
Proof. cbn. repeat split; try done. Qed.

(** ** Editing while a session runs *)

Lemma saveSeries_session (newSeries : json) (w : World) :
  let w' := saveSeries newSeries w in
  interval w' = interval w /\ clock w' = clock w /\
  isPlaying (ui w') = isPlaying (ui w) /\
  currentStep (ui w') = currentStep (ui w) /\
  currentSeries (ui w') = currentSeries (ui w) /\
  remainingTime (ui w') = remainingTime (ui w).
Proof.
  unfold saveSeries. destruct (io_fails w); cbn; [done|].
  by rewrite bool_decide_eq_true_2.
Qed.

(** C3, as the code has it: there is no snapshot.  The session reads the
    very [currentSeries] cell that the editor writes: an editor operation
    performed on an open draft while a session runs leaves the playing flag,
    the current step and the displayed remaining time as they are, but it
    re-runs the timer effect, so that the pending interval restarts the
    current step's countdown at the time of the edit and walks through the
    edited steps from then on.  Without a draft the operation does nothing.
    Writing the stored collection ([saveSeries]) leaves the session as it
    is. *)
Theorem edit_reaches_running_session (op : EditorOp) (w : World) :
  let w' := edit op w in
  (isPlaying (ui w') = isPlaying (ui w) /\
   currentStep (ui w') = currentStep (ui w) /\
   remainingTime (ui w') = remainingTime (ui w)) /\
  match currentSeries (ui w) with
  | None => w' = w
  | Some _ =>
      interval w' = timerEffect (clock w) (ui w') /\
      (isPlaying (ui w) = true -> currentStep (ui w) <> None ->
       session_steps w' = Some (draft_steps w') /\
       Interval.startTime <$> interval w' = Some (clock w))
  end /\
  forall newSeries,
    let w'' := saveSeries newSeries w in
    interval w'' = interval w /\ isPlaying (ui w'') = isPlaying (ui w) /\
    currentStep (ui w'') = currentStep (ui w) /\
    currentSeries (ui w'') = currentSeries (ui w) /\
    remainingTime (ui w'') = remainingTime (ui w).
Proof.
  intros w'. subst w'.
  assert (Hfresh : forall cs' : AlarmSeries,
    let w1 := update true (setCurrentSeries (Some cs')) w in
    (isPlaying (ui w1) = isPlaying (ui w) /\
     currentStep (ui w1) = currentStep (ui w) /\
     remainingTime (ui w1) = remainingTime (ui w)) /\
    interval w1 = timerEffect (clock w) (ui w1) /\
    (isPlaying (ui w) = true -> currentStep (ui w) <> None ->
     session_steps w1 = Some (draft_steps w1) /\
     Interval.startTime <$> interval w1 = Some (clock w))).
  { intros cs' w1. subst w1. unfold update, session_steps, draft_steps, timerEffect.
    cbn. split; [done|]. split; [done|]. intros Hp Hs. rewrite Hp.
    by destruct (currentStep (ui w)). }
  split; [|split].
  - destruct op; cbn [edit];
      unfold seriesNameInput_onChangeText, handleAddStep, deleteStepButton_onPress,
        handleUpdateStep, handleReorderSteps;
      destruct (currentSeries (ui w)) as [cs|]; try done;
      try apply Hfresh.
    match goal with |- context [update true (setCurrentSeries (Some ?c)) w] =>
      pose proof (Hfresh c) as (Hst & _); cbn zeta in Hst end.
    destruct (replace_by_id _ _ _); [|done].
    match goal with |- context [saveSeries ?l ?w1] =>
      pose proof (saveSeries_session l w1) as (_ & _ & -> & -> & _ & ->) end.
    done.
  - destruct op; cbn [edit];
      unfold seriesNameInput_onChangeText, handleAddStep, deleteStepButton_onPress,
        handleUpdateStep, handleReorderSteps;
      destruct (currentSeries (ui w)) as [cs|]; try done;
      try apply Hfresh.
    match goal with |- context [update true (setCurrentSeries (Some ?c)) w] =>
      pose proof (Hfresh c) as (_ & Hiv & Hss); cbn zeta in Hiv, Hss end.
    destruct (replace_by_id _ _ _); [|done].
    match goal with |- context [saveSeries ?l ?w1] =>
      pose proof (saveSeries_session l w1) as (Hi & _ & Hp & Hs & Hc & _) end.
    cbn zeta in *. unfold session_steps, draft_steps, timerEffect in *.
    rewrite Hi, Hp, Hs, Hc. done.
  - intros newSeries.
    pose proof (saveSeries_session newSeries w) as (? & ? & ? & ? & ? & ?). done.
Qed.

(** Ten minutes into the first step of a two-step series, with the editor
    opened on the series being played, [addStep] gives the running session a
    third step
    and puts the countdown of the current step back to its full duration:
    the next delivery shows 1499984 ms instead of 899984 ms, and the run
    fires three step boundaries before the completion. *)
Lemma addStep_changes_running_session :
  let work := AlarmStep.mk "1" 1500000 "Work" in
  let brk := AlarmStep.mk "2" 300000 "Break" in
  let pomodoro := AlarmSeries.mk "p" "Pomodoro" [work; brk] in
  let added := AlarmStep.mk "600000" 60000 "Step 3" in
  let w := handleEditSeries pomodoro
             (tick 600000 (handlePlaySeries pomodoro (initialWorld 0))) in
  let w' := edit AddStep w in
  (isPlaying (ui w) = true /\ session_steps w = Some [work; brk] /\
   remainingTime (ui w) = 900000) /\
  session_steps w' = Some [work; brk; added] /\
  remainingTime (ui (tick 16 w)) = 899984 /\
  remainingTime (ui (tick 16 w')) = 1499984 /\
  log (run [900000; 300000] w) = [Haptic work; Haptic brk; seriesComplete] /\
  log (run [1500000; 300000; 60000] w')
  = [Haptic work; Haptic brk; Haptic added; seriesComplete].
Proof. by vm_compute. Qed.

(** ** Deleting while a session runs *)

(** A session whose closure has no series ends when its step expires: one
    boundary notification, then the completion alert, and the engine is
    idle. *)
Lemma tick_without_series (w : World) (iv : Interval) (delta : Z) :
  interval w = Some iv ->
  Interval.currentSeries iv = None ->
  Interval.duration iv - (clock w + delta - Interval.startTime iv) <= 0 ->
  let w' := tick delta w in
  isPlaying (ui w') = false /\ currentStep (ui w') = None /\
  remainingTime (ui w') = 0 /\ interval w' = None /\
  log w' = log w ++ [Haptic (Interval.currentStep iv); seriesComplete].
Proof.
  intros Hi Hc Hle. unfold tick, intervalCallback. cbn [advance interval clock].
  rewrite Hi.
  destruct (Z.leb_spec (Z.max 0 (Interval.duration iv
                                 - (clock w + delta - Interval.startTime iv))) 0);
    [|lia].
  unfold closure_steps. rewrite Hc. cbn.
  repeat split; try done; [by case_match|by rewrite <- app_assoc].
Qed.

(** [clearAllSeries], the other way to delete, does not stop playback
    either. *)
Lemma clearAllSeries_keeps_playing (w : World) :
  let w' := clearAllSeries w in
  isPlaying (ui w') = isPlaying (ui w) /\
  currentStep (ui w') = currentStep (ui w) /\
  remainingTime (ui w') = remainingTime (ui w).
Proof. unfold clearAllSeries. by destruct (io_fails w). Qed.

(** C4, as the code has it: [handleDeleteSeries] does not stop playback.  It
    leaves the playing flag, the current step and the remaining time as they
    are; when the collection could be filtered it installs the filtered
    collection, clears [currentSeries] and the editing flag and writes the
    storage, and a running session goes on with its current step (the
    countdown restarted, the closure without a series); such a session ends
    at the expiry of that step with a boundary notification and the
    completion alert, and only then is the engine idle. *)
Theorem handleDeleteSeries_keeps_playing (seriesId : string) (w : World) :
  let w' := handleDeleteSeries seriesId w in
  (isPlaying (ui w') = isPlaying (ui w) /\
   currentStep (ui w') = currentStep (ui w) /\
   remainingTime (ui w') = remainingTime (ui w)) /\
  match filter_out seriesId (series (ui w)) with
  | Some updatedSeries =>
      series (ui w') = updatedSeries /\ currentSeries (ui w') = None /\
      isEditing (ui w') = false /\
      (if io_fails w then item w' = item w
       else item w' = Some (Wellformed updatedSeries)) /\
      (currentSeries (ui w) <> None -> interval w' = timerEffect (clock w) (ui w'))
  | None => ui w' = ui w /\ interval w' = interval w /\ item w' = item w
  end /\
  forall step delta,
    interval w' = Some (Interval.mk (clock w) (AlarmStep.duration step) step None) ->
    AlarmStep.duration step <= delta ->
    let w'' := tick delta w' in
    isPlaying (ui w'') = false /\ currentStep (ui w'') = None /\
    remainingTime (ui w'') = 0 /\ interval w'' = None /\
    log w'' = log w' ++ [Haptic step; seriesComplete].
Proof.
  intros w'. split; [|split].
  - subst w'. unfold handleDeleteSeries.
    destruct (filter_out seriesId (series (ui w))); [|done].
    cbn. by destruct (io_fails w).
  - subst w'. unfold handleDeleteSeries.
    destruct (filter_out seriesId (series (ui w))) as [updatedSeries|]; [|done].
    cbn. destruct (io_fails w); cbn; repeat split; try done;
      intros Hcs; unfold deps; cbn;
      (rewrite bool_decide_eq_false_2; [done|]);
      intros [= Heq]; by rewrite Heq in Hcs.
  - intros step delta Hi Hle.
    assert (Hclock : clock w' = clock w).
    { subst w'. unfold handleDeleteSeries.
      destruct (filter_out seriesId (series (ui w))); [|done].
      cbn. by destruct (io_fails w). }
    apply (tick_without_series w' _ delta Hi); [done|]. cbn. lia.
Qed.

(** The theorem at the only series of the collection, deleted while it is
    played: playback goes on, and the full first step later the haptic and
    the completion alert fire. *)
Lemma handleDeleteSeries_keeps_playing_witness :
  let work := AlarmStep.mk "1" 1500000 "Work" in
  let brk := AlarmStep.mk "2" 300000 "Break" in
  let pomodoro := AlarmSeries.mk "p" "Pomodoro" [work; brk] in
  let stored := collection_to_json [pomodoro] in
  let w0 := mkWorld (setSeries stored initialState) (Some (Wellformed stored))
                    false 0 None [] in
  let w' := handleDeleteSeries "p" (handlePlaySeries pomodoro w0) in
  let w'' := tick 1500000 w' in
  (series (ui w') = JArr [] /\ isPlaying (ui w') = true /\
   currentStep (ui w') = Some work /\ remainingTime (ui w') = 1500000) /\
  isPlaying (ui w'') = false /\ currentStep (ui w'') = None /\
  remainingTime (ui w'') = 0 /\ interval w'' = None /\
  log w'' = log w' ++ [Haptic work; seriesComplete].
Proof.
  intros work brk pomodoro stored w0 w' w''. split; [by vm_compute|].
  apply (handleDeleteSeries_keeps_playing "p" (handlePlaySeries pomodoro w0)).
  - by vm_compute.
  - cbn. lia.
Defined.

(** Deleting the series that is being played leaves the engine running on
    its current step, and notifications still fire for that session. *)
Lemma handleDeleteSeries_does_not_stop :
  let work := AlarmStep.mk "1" 1500000 "Work" in
  let brk := AlarmStep.mk "2" 300000 "Break" in
  let pomodoro := AlarmSeries.mk "p" "Pomodoro" [work; brk] in
  let stored := collection_to_json [pomodoro] in
  let w0 := mkWorld (setSeries stored initialState) (Some (Wellformed stored))
                    false 0 None [] in
  let w := handlePlaySeries pomodoro w0 in
  let w' := handleDeleteSeries "p" w in
  (isPlaying (ui w) = true /\ AlarmSeries.id <$> currentSeries (ui w) = Some "p"%string) /\
  (series (ui w') = JArr [] /\ item w' = Some (Wellformed (JArr []))) /\
  isPlaying (ui w') = true /\
  currentStep (ui w') = Some work /\
  remainingTime (ui w') = 1500000 /\
  interval w' = Some (Interval.mk 0 1500000 work None) /\
  log w' = [] /\
  log (tick 1500000 w') = [Haptic work; seriesComplete].
Proof. by vm_compute. Qed.

(** ** Series editor: the step ids *)

Lemma toString_inj (a b : Z) : toString a = toString b -> a = b.
Proof. unfold toString. apply (inj pretty). Qed.

Lemma filter_ids_NoDup (p : AlarmStep -> bool) (l : list AlarmStep) :
  NoDup (map AlarmStep.id l) -> NoDup (map AlarmStep.id (List.filter p l)).
Proof.
  induction l as [|a l IH]; cbn; [done|].
  rewrite NoDup_cons. intros [Hnotin Hnd].
  destruct (p a); cbn; [|by apply IH].
  rewrite NoDup_cons. split; [|by apply IH].
  intros Hin. apply Hnotin.
  apply list_elem_of_fmap in Hin as (y & -> & Hy).
  apply list_elem_of_fmap. exists y. split; [done|].
  apply list_elem_of_In. apply list_elem_of_In in Hy.
  by apply List.filter_In in Hy as [? _].
Qed.

Lemma deleteStepButton_draft (item : AlarmStep) (w : World) (cs : AlarmSeries) :
  currentSeries (ui w) = Some cs ->
  draft_steps (deleteStepButton_onPress item w)
  = List.filter (fun s => negb (str_eq (AlarmStep.id s) (AlarmStep.id item)))
                (AlarmSeries.steps cs).
Proof.
  intros Hcs. unfold deleteStepButton_onPress, draft_steps. rewrite Hcs.
  destruct (replace_by_id _ _ _); [|done].
  match goal with |- context [saveSeries ?l ?w1] =>
    pose proof (saveSeries_session l w1) as (_ & _ & _ & _ & Hc & _) end.
  cbn zeta in Hc. by rewrite Hc.
Qed.

(** C9, as the code has it: [handleAddStep] appends the step whose id is the
    decimal numeral of the clock reading, whose duration is 60000 ms and
    whose name is "Step N" with N the step count plus one.  The step ids
    are unique afterwards exactly when they were before and none of them is
    that numeral, which is the case when they are the numerals of earlier
    clock readings.  Removing a step and renaming the series keep the ids
    as they are or fewer; [handleUpdateStep] keeps them when the partial
    fields carry no id; [handleReorderSteps] installs the ids of the
    supplied sequence. *)
Theorem step_ids_after_edit (w : World) (cs : AlarmSeries) :
  currentSeries (ui w) = Some cs ->
  let ids := map AlarmStep.id (AlarmSeries.steps cs) in
  draft_steps (handleAddStep w)
  = AlarmSeries.steps cs
    ++ [AlarmStep.mk (toString (clock w)) 60000
          ("Step " +:+ toString (Z.of_nat (length (AlarmSeries.steps cs)) + 1))] /\
  (NoDup (step_ids (handleAddStep w)) <-> NoDup ids /\ toString (clock w) ∉ ids) /\
  ((forall i, i ∈ ids -> exists t, i = toString t /\ t < clock w) ->
   toString (clock w) ∉ ids) /\
  (forall item, NoDup ids -> NoDup (step_ids (deleteStepButton_onPress item w))) /\
  (forall text, step_ids (seriesNameInput_onChangeText text w) = ids) /\
  (forall stepId updates,
     PartialAlarmStep.id updates = None ->
     step_ids (handleUpdateStep stepId updates w) = ids) /\
  (forall steps, step_ids (handleReorderSteps steps w) = map AlarmStep.id steps).
Proof.
  intros Hcs ids.
  assert (Hadd : step_ids (handleAddStep w) = ids ++ [toString (clock w)]).
  { unfold step_ids, handleAddStep, draft_steps. rewrite Hcs. cbn.
    by rewrite map_app. }
  split; [|split; [|split; [|split; [|split; [|split]]]]].
  - unfold handleAddStep, draft_steps. by rewrite Hcs.
  - rewrite Hadd, NoDup_app. split.
    + intros (Hnd & Hdisj & _). split; [done|].
      intros Hin. apply (Hdisj _ Hin). left.
    + intros [Hnd Hfresh]. repeat split; [done| |apply NoDup_singleton].
      intros i Hi Hi'. apply list_elem_of_singleton in Hi' as ->.
      by apply Hfresh.
  - intros Hearlier Hin. destruct (Hearlier _ Hin) as (t & Heq & Hlt).
    apply toString_inj in Heq. lia.
  - intros item Hnd. unfold step_ids.
    rewrite (deleteStepButton_draft item w cs Hcs). by apply filter_ids_NoDup.
  - intros text. unfold step_ids, seriesNameInput_onChangeText, draft_steps.
    by rewrite Hcs.
  - intros stepId updates Hnone.
    unfold step_ids, handleUpdateStep, draft_steps. rewrite Hcs. cbn.
    rewrite map_map. apply map_ext. intros a.
    destruct (str_eq (AlarmStep.id a) stepId); [|done].
    unfold spread. by rewrite Hnone.
  - intros steps. unfold step_ids, handleReorderSteps, draft_steps. by rewrite Hcs.
Qed.

(** The theorem at a draft whose two steps were added at the clock readings
    1000 and 2000, edited at 3000. *)
Lemma step_ids_after_edit_witness :
  let a := AlarmStep.mk "1000" 60000 "Step 1" in
  let b := AlarmStep.mk "2000" 60000 "Step 2" in
  let cs := AlarmSeries.mk "s" "New Series" [a; b] in
  let w := handleEditSeries cs (initialWorld 3000) in
  step_ids (handleAddStep w) = ["1000"; "2000"; "3000"]%string /\
  NoDup (step_ids (handleAddStep w)).
Proof.
  intros a b cs w. split; [by vm_compute|].
  destruct (step_ids_after_edit w cs eq_refl) as (_ & Hiff & Hearlier & _).
  apply Hiff. split.
  - apply (bool_decide_unpack _). by vm_compute.
  - apply Hearlier. intros i Hi.
    apply elem_of_cons in Hi as [->|Hi]; [exists 1000; by vm_compute|].
    apply list_elem_of_singleton in Hi as ->. exists 2000. by vm_compute.
Defined.

(** Two [addStep]s at the same clock reading give two steps with the same
    id. *)
Lemma handleAddStep_repeats_id :
  let w := handleEditSeries (AlarmSeries.mk "s" "New Series" []) (initialWorld 1700000000000) in
  let w1 := handleAddStep w in
  let w2 := handleAddStep w1 in
  NoDup (step_ids w1) /\
  draft_steps w2
  = [AlarmStep.mk "1700000000000" 60000 "Step 1";
     AlarmStep.mk "1700000000000" 60000 "Step 2"] /\
  ~ NoDup (step_ids w2).
Proof.
  intros w w1 w2. split; [|split].
  - apply (bool_decide_unpack _). by vm_compute.
  - by vm_compute.
  - apply (bool_decide_eq_false_1 (NoDup (step_ids w2))). by vm_compute.
Qed.

(** ** Series editor: the step durations *)

Lemma spread_duration (step : AlarmStep) (updates : PartialAlarmStep) :
  AlarmStep.duration (spread step updates)
  = default (AlarmStep.duration step) (PartialAlarmStep.duration updates).
Proof. done. Qed.

Lemma handleUpdateStep_durations_ok stepId updates w :
  durations_ok (draft_steps w) ->
  (forall d, PartialAlarmStep.duration updates = Some d -> 0 <= d) ->
  durations_ok (draft_steps (handleUpdateStep stepId updates w)).
Proof.
  unfold handleUpdateStep, draft_steps, durations_ok.
  destruct (currentSeries (ui w)) as [cs|] eqn:Hcs; [|by rewrite Hcs]. cbn.
  intros Hok Hd. apply Forall_fmap. eapply Forall_impl; [exact Hok|].
  intros step Hstep. cbn. destruct (str_eq _ _); [|done].
  rewrite spread_duration. destruct (PartialAlarmStep.duration updates); cbn; auto.
Qed.

(** C10, as the code has it: on a draft whose steps all have a duration
    >= 0, [addStep] and [removeStep] keep it so; [reorderSteps] does exactly
    when the supplied steps all have a duration >= 0; [updateStep] puts the
    partial fields over the step as they are, so it keeps the invariant when
    the duration it is given, if any, is >= 0; the two duration inputs give
    it a duration >= 0 when the integer read from the text is >= 0. *)
Theorem durations_after_edit (w : World) (cs : AlarmSeries) :
  currentSeries (ui w) = Some cs ->
  durations_ok (AlarmSeries.steps cs) ->
  durations_ok (draft_steps (handleAddStep w)) /\
  (forall item, durations_ok (draft_steps (deleteStepButton_onPress item w))) /\
  (forall steps,
     durations_ok (draft_steps (handleReorderSteps steps w)) <-> durations_ok steps) /\
  (forall stepId updates,
     draft_steps (handleUpdateStep stepId updates w)
     = map (fun step => if str_eq (AlarmStep.id step) stepId
                        then spread step updates else step)
           (AlarmSeries.steps cs)) /\
  (forall stepId updates,
     (forall d, PartialAlarmStep.duration updates = Some d -> 0 <= d) ->
     durations_ok (draft_steps (handleUpdateStep stepId updates w))) /\
  (forall item parsed,
     0 <= or_zero parsed ->
     durations_ok (draft_steps (minutesInput_onChangeText item parsed w))) /\
  (forall item parsed,
     0 <= or_zero parsed -> 0 <= AlarmStep.duration item ->
     durations_ok (draft_steps (secondsInput_onChangeText item parsed w))).
Proof.
  intros Hcs Hok.
  assert (Hdraft : durations_ok (draft_steps w))
    by (unfold draft_steps; by rewrite Hcs).
  repeat split.
  - unfold handleAddStep, draft_steps, durations_ok. rewrite Hcs. cbn.
    apply Forall_app. split; [done|]. by repeat constructor.
  - intros item. rewrite (deleteStepButton_draft item w cs Hcs).
    unfold durations_ok in *. rewrite Forall_forall in *.
    intros x Hx. apply Hok. apply list_elem_of_In. apply list_elem_of_In in Hx.
    by apply List.filter_In in Hx as [? _].
  - unfold handleReorderSteps, draft_steps. by rewrite Hcs.
  - unfold handleReorderSteps, draft_steps. by rewrite Hcs.
  - intros stepId updates. unfold handleUpdateStep, draft_steps. by rewrite Hcs.
  - intros stepId updates Hd. by apply handleUpdateStep_durations_ok.
  - intros item parsed Hp. apply handleUpdateStep_durations_ok; [done|].
    intros d [= <-]. lia.
  - intros item parsed Hp Hitem. apply handleUpdateStep_durations_ok; [done|].
    intros d [= <-]. pose proof (Z.div_pos (AlarmStep.duration item) 60000). lia.
Qed.

(** The theorem at a one-step draft whose minutes input reads 2. *)
Lemma durations_after_edit_witness :
  let a := AlarmStep.mk "1" 60000 "Step 1" in
  let cs := AlarmSeries.mk "s" "New Series" [a] in
  let w := handleEditSeries cs (initialWorld 0) in
  draft_steps (minutesInput_onChangeText a (Some 2) w)
  = [AlarmStep.mk "1" 120000 "Step 1"] /\
  durations_ok (draft_steps (minutesInput_onChangeText a (Some 2) w)).
Proof.
  intros a cs w. split; [by vm_compute|].
  assert (Hok : durations_ok (AlarmSeries.steps cs)) by (repeat constructor; cbn; lia).
  destruct (durations_after_edit w cs eq_refl Hok) as (_ & _ & _ & _ & _ & Hmin & _).
  apply Hmin. cbn. lia.
Defined.

(** Typing -1 in the minutes input of a one-minute step (the text reads as
    the integer -1, which is truthy) makes [handleUpdateStep] install a
    duration of -60000 ms. *)
Lemma handleUpdateStep_installs_negative_duration :
  let a := AlarmStep.mk "1" 60000 "Step 1" in
  let cs := AlarmSeries.mk "s" "New Series" [a] in
  let w := handleEditSeries cs (initialWorld 0) in
  let w' := edit (UpdateStep "1" (PartialAlarmStep.mk None (Some (-60000)) None)) w in
  durations_ok (draft_steps w) /\
  minutesInput_onChangeText a (Some (-1)) w = w' /\
  draft_steps w' = [AlarmStep.mk "1" (-60000) "Step 1"] /\
  ~ durations_ok (draft_steps w').
Proof.
  intros a cs w w'. split; [|split; [|split]].
  - repeat constructor; cbn; lia.
  - by vm_compute.
  - by vm_compute.
  - intros Hok. vm_compute in Hok. inversion Hok as [|? ? Hneg _]. by apply Hneg.
Qed.

(** The theorem at a running session whose series is renamed ten minutes
    into its first step: the interval restarts at the time of the edit and
    holds the renamed series. *)
Lemma edit_reaches_running_session_witness :
  let work := AlarmStep.mk "1" 1500000 "Work" in
  let brk := AlarmStep.mk "2" 300000 "Break" in
  let pomodoro := AlarmSeries.mk "p" "Pomodoro" [work; brk] in
  let w := handleEditSeries pomodoro
             (tick 600000 (handlePlaySeries pomodoro (initialWorld 0))) in
  let w' := edit (Rename "Focus") w in
  (remainingTime (ui w') = 900000 /\ currentStep (ui w') = Some work) /\
  session_steps w' = Some (draft_steps w') /\
  Interval.startTime <$> interval w' = Some 600000.
Proof.
  intros work brk pomodoro w w'. split; [by vm_compute|].
  pose proof (edit_reaches_running_session (Rename "Focus") w) as (_ & Hrun & _).
  apply Hrun; by vm_compute.
Defined.

(** ** The scenario of the specification *)

(** A 25-minute step and a 5-minute step: after 1500000 ms one boundary has
    fired, the engine is on "Break" with 300000 ms remaining; 300000 ms later
    the second boundary and the completion have fired and the engine is
    idle. *)
Example pomodoro_scenario :
  let work := AlarmStep.mk "1" 1500000 "Work" in
  let brk := AlarmStep.mk "2" 300000 "Break" in
  let pomodoro := AlarmSeries.mk "p" "Pomodoro" [work; brk] in
  let w1 := tick 1500000 (handlePlaySeries pomodoro (initialWorld 0)) in
  let w2 := tick 300000 w1 in
  (log w1 = [Haptic work] /\ currentStep (ui w1) = Some brk /\
   remainingTime (ui w1) = 300000 /\ isPlaying (ui w1) = true) /\
  (log w2 = [Haptic work; Haptic brk; seriesComplete] /\
   isPlaying (ui w2) = false /\ currentStep (ui w2) = None).
Proof. by vm_compute. Qed.


(** * Further properties of the screen *)

(** ** The session and the cells agree, whatever has happened *)

Lemma update_session_ok (fresh : bool) (f : State -> State) (w : World) :
  session_ok w ->
  (isPlaying (f (ui w)) = true <-> currentStep (f (ui w)) <> None) ->
  (isPlaying (f (ui w)) = false -> remainingTime (f (ui w)) = 0) ->
  session_ok (update fresh f w).
Proof.
  intros (_ & _ & Hiv) Hp Hr. unfold session_ok, update. cbn.
  split; [done|]. split; [done|].
  destruct (fresh || negb (bool_decide (deps (ui w) = deps (f (ui w))))) eqn:Hc.
  - unfold timerEffect. destruct (isPlaying (f (ui w))) eqn:Hpl; [|done].
    by destruct (currentStep (f (ui w))).
  - apply orb_false_iff in Hc as [_ Hc]. apply negb_false_iff in Hc.
    apply bool_decide_eq_true_1 in Hc. unfold deps in Hc.
    injection Hc as Hpl Hst Hse.
    destruct (interval w) as [iv|]; [|done].
    by rewrite <- Hpl, <- Hst, <- Hse.
Qed.

Lemma update_session_ok_frame (fresh : bool) (f : State -> State) (w : World) :
  session_ok w ->
  isPlaying (f (ui w)) = isPlaying (ui w) ->
  currentStep (f (ui w)) = currentStep (ui w) ->
  remainingTime (f (ui w)) = remainingTime (ui w) ->
  session_ok (update fresh f w).
Proof.
  intros Hw Hp Hs Hr. pose proof Hw as (? & ? & _).
  apply update_session_ok; [done|..]; by rewrite Hp, ?Hs, ?Hr.
Qed.

Lemma session_ok_same (w w' : World) :
  ui w' = ui w -> interval w' = interval w -> session_ok w -> session_ok w'.
Proof. intros Hu Hi. unfold session_ok. by rewrite Hu, Hi. Qed.

Lemma saveSeries_session_ok newSeries w : session_ok w -> session_ok (saveSeries newSeries w).
Proof.
  intros Hw. unfold saveSeries. destruct (io_fails w).
  - by apply (session_ok_same w).
  - apply update_session_ok; [by apply (session_ok_same w)|..];
      cbn; apply Hw.
Qed.

Lemma edit_session_ok op w : session_ok w -> session_ok (edit op w).
Proof.
  intros Hw. pose proof Hw as (Hp & Hr & _).
  destruct op; cbn [edit];
    unfold seriesNameInput_onChangeText, handleAddStep, deleteStepButton_onPress,
      handleUpdateStep, handleReorderSteps;
    destruct (currentSeries (ui w)); try done;
    try (by apply update_session_ok).
  destruct (replace_by_id _ _ _).
  - apply saveSeries_session_ok. by apply update_session_ok.
  - by apply update_session_ok.
Qed.

Lemma tick_session_ok delta w : session_ok w -> session_ok (tick delta w).
Proof.
  intros Hw. pose proof Hw as (Hp & Hr & Hiv).
  unfold tick, intervalCallback. cbn [advance interval clock].
  destruct (interval w) as [iv|] eqn:Hi.
  2:{ apply (session_ok_same w); [done| |done]. by cbn. }
  destruct Hiv as (Hpl & Hst & Hse & Hd).
  case_match.
  - set (w1 := playAlarm _ _).
    assert (Hw1 : session_ok w1).
    { unfold session_ok. cbn. by repeat split; try apply Hp; try apply Hr. }
    cbv zeta.
    destruct (andb _ _).
    + destruct (_ !! _); [|done].
      apply update_session_ok; [done|..]; cbn; [|congruence].
      split; [done|]. intros _. exact Hpl.
    + apply (session_ok_same (handleStopSeries w1)); [done..|].
      apply update_session_ok; [done|..]; cbn; [|done].
      split; [done|]. by intros [].
  - apply update_session_ok; cbn.
    + apply (session_ok_same w); [done| |done]. by cbn.
    + done.
    + congruence.
Qed.

Lemma act_session_ok a w : session_ok w -> session_ok (act a w).
Proof.
  intros Hw. pose proof Hw as (Hp & Hr & _).
  destruct a; cbn [act].
  - unfold loadSeries. repeat case_match; try done;
      try (by apply (session_ok_same w)).
    by apply update_session_ok.
  - unfold handleCreateNewSeries. repeat case_match;
      try (by apply (session_ok_same w)).
    apply update_session_ok_frame; [by apply (session_ok_same w)|done..].
  - by apply update_session_ok.
  - by apply edit_session_ok.
  - by apply (edit_session_ok (UpdateStep _ _)).
  - by apply (edit_session_ok (UpdateStep _ _)).
  - unfold handleSaveSeries. repeat case_match; try done;
      (apply update_session_ok_frame; [by apply saveSeries_session_ok|done..]).
  - by apply update_session_ok.
  - unfold handleDeleteSeries. case_match; [|by apply (session_ok_same w)].
    case_match.
    + apply (session_ok_same (update false
         (fun s => setCurrentSeries None (setIsEditing false (setSeries j s))) w));
        [done..|]. by apply update_session_ok.
    + apply (session_ok_same (update false
         (fun s => setCurrentSeries None (setIsEditing false (setSeries j s))) w));
        [done..|]. by apply update_session_ok.
  - unfold clearAllSeries. case_match; [by apply (session_ok_same w)|].
    apply update_session_ok; [by apply (session_ok_same w)|..]; done.
  - unfold handlePlaySeries. case_match; [by apply (session_ok_same w)|].
    apply update_session_ok; [done|..]; cbn; [|done]. split; done.
  - unfold handleStopSeries. apply update_session_ok; [done|..]; cbn; [|done].
    split; [done|]. by intros [].
  - by apply tick_session_ok.
  - by apply (session_ok_same w).
Qed.

Lemma acts_app (l1 l2 : list Action) (w : World) :
  acts (l1 ++ l2) w = acts l2 (acts l1 w).
Proof. unfold acts. apply fold_left_app. Qed.

Lemma acts_session_ok (history : list Action) (w : World) :
  session_ok w -> session_ok (acts history w).
Proof.
  revert w. induction history as [|a l IH]; intros w Hw; [done|].
  cbn. apply IH. by apply act_session_ok.
Qed.

Lemma initialWorld_session_ok (now : Z) : session_ok (initialWorld now).
Proof. unfold session_ok. cbn. repeat split; done. Qed.

(** Without a pending interval the deliveries do nothing but let the clock
    run. *)
Lemma run_without_interval (delays : list Z) (w : World) :
  interval w = None ->
  ui (run delays w) = ui w /\ log (run delays w) = log w /\
  interval (run delays w) = None /\ item (run delays w) = item w.
Proof.
  revert w. induction delays as [|d ds IH]; intros w Hi; [done|].
  cbn [run]. unfold tick, intervalCallback. cbn [advance interval]. rewrite Hi.
  by destruct (IH (advance d w) Hi) as (-> & -> & -> & ->).
Qed.

Lemma handleStopSeries_clears_interval (w : World) :
  session_ok w -> interval (handleStopSeries w) = None.
Proof.
  intros (_ & _ & Hiv). unfold handleStopSeries, update, deps, timerEffect. cbn.
  case_bool_decide as Hd; cbn; [|done].
  destruct (interval w) as [iv|]; [|done].
  destruct Hiv as (Hpl & _). congruence.
Qed.

(** X1: whatever the user has done since launch and whenever the interval
    callback was delivered, the engine is either idle, with no current step,
    a remaining time of 0 and no pending interval, or playing with a current
    step; and a pending interval always holds the current step and the
    current series of the cells, never older ones. *)
Theorem session_agrees_with_cells (now : Z) (history : list Action) :
  let w := acts history (initialWorld now) in
  (if isPlaying (ui w)
   then exists step, currentStep (ui w) = Some step
   else currentStep (ui w) = None /\ remainingTime (ui w) = 0 /\ interval w = None) /\
  forall iv, interval w = Some iv ->
    currentStep (ui w) = Some (Interval.currentStep iv) /\
    currentSeries (ui w) = Interval.currentSeries iv /\
    AlarmStep.duration (Interval.currentStep iv) = Interval.duration iv.
Proof.
  intros w.
  pose proof (acts_session_ok history _ (initialWorld_session_ok now))
    as (Hp & Hr & Hiv).
  fold w in Hp, Hr, Hiv. split.
  - destruct (isPlaying (ui w)) eqn:Hpl.
    + destruct (currentStep (ui w)) as [step|] eqn:Hs; [by exists step|].
      by destruct (proj1 Hp eq_refl).
    + split; [|split; [by apply Hr|]].
      * destruct (currentStep (ui w)) eqn:Hs; [|done].
        by discriminate (proj2 Hp ltac:(done)).
      * destruct (interval w) as [iv|]; [|done]. by destruct Hiv as (? & _).
  - intros iv Hi. rewrite Hi in Hiv. by destruct Hiv as (_ & -> & -> & ->).
Qed.

(** X2: after [handleStopSeries], in whatever situation the screen was, no
    delivery of the interval callback notifies or changes a cell any more:
    the log and the cells stay as the stop left them, idle. *)
Theorem stop_silences_the_interval
    (now : Z) (history : list Action) (delays : list Z) :
  let w := handleStopSeries (acts history (initialWorld now)) in
  log w = log (acts history (initialWorld now)) /\
  log (run delays w) = log w /\ ui (run delays w) = ui w /\
  isPlaying (ui w) = false /\ currentStep (ui w) = None /\
  remainingTime (ui w) = 0.
Proof.
  intros w.
  pose proof (acts_session_ok history _ (initialWorld_session_ok now)) as Hok.
  pose proof (handleStopSeries_clears_interval _ Hok) as Hi. fold w in Hi.
  destruct (run_without_interval delays w Hi) as (Hu & Hl & _).
  by repeat split.
Qed.

(** ** How long a playback takes *)

Lemma totalDuration_sum (s : AlarmSeries) :
  totalDuration s = sum_durations (AlarmSeries.steps s).
Proof.
  unfold totalDuration, sum_durations.
  assert (H : forall l a,
    fold_left (fun total step => total + AlarmStep.duration step) l a
    = a + fold_right (fun step acc => AlarmStep.duration step + acc) 0 l).
  { induction l as [|x l IH]; intros a; cbn; [lia|]. rewrite IH. lia. }
  by rewrite H.
Qed.

Lemma sum_durations_drop (l : list AlarmStep) (k : nat) x :
  l !! k = Some x ->
  sum_durations (drop k l) = AlarmStep.duration x + sum_durations (drop (S k) l).
Proof.
  revert k. induction l as [|a l IH]; intros [|k] Hk; try done.
  - by injection Hk as ->.
  - cbn. by apply IH.
Qed.


Lemma time_taken_nonneg (delays : list Z) :
  Forall (fun delta => 0 <= delta) delays -> 0 <= time_taken delays.
Proof. unfold time_taken. induction 1; cbn in *; lia. Qed.

Section Timing.
Variable s : AlarmSeries.
Variable log0 : list Event.
Hypothesis ids_unique : NoDup (map AlarmStep.id (AlarmSeries.steps s)).

(** The session is still running as long as the schedule has taken less
    than what is left of the current step and the steps after it. *)
Lemma run_not_before delays : forall k step t0 w,
  playing_at s log0 k step t0 w ->
  Forall (fun delta => 0 <= delta) delays ->
  time_taken delays
    < AlarmStep.duration step - (clock w - t0)
      + sum_durations (drop (S k) (AlarmSeries.steps s)) ->
  exists k' step' t0', playing_at s log0 k' step' t0' (run delays w).
Proof.
  induction delays as [|d ds IH]; intros k step t0 w Hw Hpos Hlt.
  - by exists k, step, t0.
  - apply Forall_cons in Hpos as [Hd Hpos]. cbn [run].
    change (time_taken (d :: ds)) with (d + time_taken ds) in Hlt.
    pose proof (time_taken_nonneg ds Hpos).
    destruct (Z.lt_ge_cases 0 (AlarmStep.duration step - (clock w + d - t0)))
      as [Hwait|Hfire].
    + destruct (tick_waiting s log0 k step t0 w d Hw Hwait) as (Hw' & Hc' & _).
      apply (IH k step t0 _ Hw' Hpos). rewrite Hc'. lia.
    + destruct (AlarmSeries.steps s !! S k) as [next|] eqn:Hn.
      * destruct (tick_next s log0 ids_unique k step t0 w d next Hw Hfire Hn)
          as (Hw' & Hc' & _).
        apply (IH (S k) next _ _ Hw' Hpos). rewrite Hc'.
        rewrite (sum_durations_drop _ _ _ Hn) in Hlt. lia.
      * apply lookup_ge_None in Hn.
        rewrite drop_ge in Hlt by lia. unfold sum_durations in Hlt. cbn in Hlt. lia.
Qed.

End Timing.

(** X3: a playback is never over early: from [play] on an idle engine, as
    long as the deliveries so far have taken less than the total shown on
    the series card (the sum of the step durations), the engine is still
    playing and the completion has not fired. *)
Theorem playback_not_over_before_total
    (s : AlarmSeries) (w0 : World) (delays : list Z) :
  AlarmSeries.steps s <> [] ->
  NoDup (map AlarmStep.id (AlarmSeries.steps s)) ->
  isPlaying (ui w0) = false ->
  Forall (fun delta => 0 <= delta) delays ->
  time_taken delays < totalDuration s ->
  let w := run delays (handlePlaySeries s w0) in
  isPlaying (ui w) = true /\
  exists k, (k < length (AlarmSeries.steps s))%nat /\
            log w = log w0 ++ map Haptic (take k (AlarmSeries.steps s)).
Proof.
  intros Hne Hnd Hidle Hpos Hlt w.
  assert (exists first rest, AlarmSeries.steps s = first :: rest) as (first & rest & Hs).
  { destruct (AlarmSeries.steps s) as [|first rest]; [done|by exists first, rest]. }
  destruct (handlePlaySeries_starts s w0 first rest Hs Hidle) as (Hstart & Hc & _).
  destruct (run_not_before s (log w0) Hnd delays 0%nat first (clock w0) _ Hstart Hpos)
    as (k & step & t0 & Hk & Hp & _ & _ & _ & Hl).
  { rewrite Hc, Z.sub_diag, Z.sub_0_r.
    rewrite <- (sum_durations_drop _ 0 first) by (by rewrite Hs).
    by rewrite drop_0, <- totalDuration_sum. }
  split; [done|]. exists k. split; [|done]. by apply lookup_lt_Some in Hk.
Qed.

Lemma playback_not_over_before_total_witness :
  let work := AlarmStep.mk "1" 1500000 "Work" in
  let brk := AlarmStep.mk "2" 300000 "Break" in
  let pomodoro := AlarmSeries.mk "p" "Pomodoro" [work; brk] in
  let w := run [1000000; 799999] (handlePlaySeries pomodoro (initialWorld 0)) in
  isPlaying (ui w) = true /\
  exists k, (k < 2)%nat /\ log w = [] ++ map Haptic (take k [work; brk]).
Proof.
  intros work brk pomodoro w.
  apply (playback_not_over_before_total pomodoro (initialWorld 0) [1000000; 799999]).
  - done.
  - apply (bool_decide_unpack _). by vm_compute.
  - done.
  - repeat constructor; lia.
  - by vm_compute.
Defined.



(** ** The time display *)

Lemma append_inj_length (x x' y y' : string) :
  String.length x = String.length x' ->
  x +:+ y = x' +:+ y' -> x = x' /\ y = y'.
Proof.
  revert x'. induction x as [|c x IH]; intros [|c' x'] Hlen Heq; try done.
  cbn in *. injection Heq as -> Heq. injection Hlen as Hlen.
  by destruct (IH x' Hlen Heq) as [-> ->].
Qed.

Lemma length_append (x y : string) :
  String.length (x +:+ y) = (String.length x + String.length y)%nat.
Proof.
  induction x as [|c x IH]; [done|].
  change (String c x +:+ y) with (String c (x +:+ y)). cbn. by rewrite IH.
Qed.

Lemma below_100 (P : nat -> Prop) :
  Forall P (seq 0 100) -> forall n, 0 <= n < 100 -> P (Z.to_nat n).
Proof.
  intros H n Hn. apply (proj1 (Forall_forall _ _) H).
  apply list_elem_of_In, in_seq. lia.
Qed.

Lemma two_digits_length (n : Z) :
  0 <= n < 100 -> String.length (padStart 2 "0" (toString n)) = 2%nat.
Proof.
  intros Hn. rewrite <- (Z2Nat.id n) by lia.
  apply (below_100 (fun i => String.length (padStart 2 "0" (toString (Z.of_nat i))) = 2%nat));
    [|done].
  apply (bool_decide_unpack _). by vm_compute.
Qed.

Lemma two_digits_inj (n m : Z) :
  0 <= n < 100 -> 0 <= m < 100 ->
  padStart 2 "0" (toString n) = padStart 2 "0" (toString m) -> n = m.
Proof.
  intros Hn Hm. rewrite <- (Z2Nat.id n), <- (Z2Nat.id m) by lia.
  intros Heq. f_equal. revert Heq.
  apply (below_100 (fun j =>
           padStart 2 "0" (toString (Z.of_nat (Z.to_nat n)))
           = padStart 2 "0" (toString (Z.of_nat j)) -> Z.to_nat n = j)); [|done].
  apply (below_100 (fun i => Forall (fun j =>
           padStart 2 "0" (toString (Z.of_nat i))
           = padStart 2 "0" (toString (Z.of_nat j)) -> i = j) (seq 0 100))); [|done].
  apply (bool_decide_unpack _). by vm_compute.
Qed.

Lemma formatTime_fields (ms : Z) :
  0 <= ms < 6000000 ->
  0 <= ms / 60000 < 100 /\ 0 <= Z.rem ms 60000 / 1000 < 60 /\
  ms / 1000 = 60 * (ms / 60000) + Z.rem ms 60000 / 1000.
Proof.
  intros Hms. rewrite Z.rem_mod_nonneg by lia.
  pose proof (Z.mod_pos_bound ms 60000 ltac:(lia)).
  pose proof (Z.div_mod ms 60000 ltac:(lia)).
  repeat split.
  - apply Z.div_pos; lia.
  - apply Z.div_lt_upper_bound; lia.
  - apply Z.div_pos; lia.
  - apply Z.div_lt_upper_bound; lia.
  - rewrite H0 at 1. replace (60000 * (ms / 60000)) with ((60 * (ms / 60000)) * 1000) by lia.
    rewrite Z.div_add_l by lia. done.
Qed.

(** X5: for a time under 100 minutes, [formatTime] gives a text of five
    characters, and two such times are shown by the same text exactly when
    they agree in their whole seconds. *)
Theorem formatTime_shows_whole_seconds (a b : Z) :
  0 <= a < 6000000 -> 0 <= b < 6000000 ->
  String.length (formatTime a) = 5%nat /\
  (formatTime a = formatTime b <-> a / 1000 = b / 1000).
Proof.
  intros Ha Hb.
  destruct (formatTime_fields a Ha) as (Hma & Hsa & Hqa).
  destruct (formatTime_fields b Hb) as (Hmb & Hsb & Hqb).
  unfold formatTime. cbv zeta. split.
  - rewrite !length_append, !two_digits_length by lia. done.
  - split.
    + intros Heq.
      apply append_inj_length in Heq as [Hm Hs];
        [|by rewrite !two_digits_length by lia].
      apply two_digits_inj in Hm; [|lia..].
      apply (append_inj_length ":" ":") in Hs as [_ Hs]; [|done].
      apply two_digits_inj in Hs; [|lia..]. lia.
    + intros Heq.
      assert (a / 60000 = b / 60000 /\ Z.rem a 60000 / 1000 = Z.rem b 60000 / 1000)
        as [-> ->] by lia.
      done.
Qed.

(** ** The collection: saving, creating, deleting *)

Lemma json_to_step_to_json (st : AlarmStep) : json_to_step (step_to_json st) = Some st.
Proof. by destruct st. Qed.

Lemma json_to_series_to_json (s : AlarmSeries) :
  json_to_series (series_to_json s) = Some s.
Proof.
  destruct s as [i n steps]. cbn.
  rewrite (mapM_fmap_Some json_to_step step_to_json) by apply json_to_step_to_json.
  done.
Qed.

Lemma json_to_collection_to_json (l : list AlarmSeries) :
  json_to_collection (collection_to_json l) = Some l.
Proof.
  unfold json_to_collection, collection_to_json.
  apply (mapM_fmap_Some json_to_series series_to_json), json_to_series_to_json.
Qed.

Lemma element_id_series (s : AlarmSeries) :
  element_id (series_to_json s) = Some (Some (JStr (AlarmSeries.id s))).
Proof. done. Qed.

Lemma element_id_valid (x : json) :
  is_Some (json_to_series x) -> is_Some (element_id x).
Proof. destruct x; cbn; by intros [? ?]. Qed.

Lemma mapM_element_id_valid (xs : list json) :
  Forall (is_Some ∘ json_to_series) xs -> is_Some (mapM element_id xs).
Proof.
  intros H. apply mapM_is_Some. eapply Forall_impl; [exact H|].
  intros x. apply element_id_valid.
Qed.

Lemma records_valid (l : list AlarmSeries) :
  Forall (is_Some ∘ json_to_series) (map series_to_json l).
Proof.
  apply Forall_fmap, Forall_true. intros s. unfold compose.
  rewrite json_to_series_to_json. by eexists.
Qed.

Lemma filter_out_records (seriesId : string) (l : list AlarmSeries) :
  filter_out seriesId (collection_to_json l)
  = Some (collection_to_json
            (List.filter (fun s => negb (str_eq (AlarmSeries.id s) seriesId)) l)).
Proof.
  unfold filter_out, collection_to_json.
  destruct (mapM_element_id_valid _ (records_valid l)) as [ids ->].
  do 2 f_equal. induction l as [|s l IH]; [done|].
  cbn [map List.filter]. rewrite element_id_series. cbn [id_is].
  destruct (str_eq (AlarmSeries.id s) seriesId); cbn; by rewrite IH.
Qed.

Lemma replace_by_id_records (id : string) (cs : AlarmSeries) (l : list AlarmSeries) :
  replace_by_id id (series_to_json cs) (collection_to_json l)
  = Some (collection_to_json
            (map (fun s => if str_eq (AlarmSeries.id s) id then cs else s) l)).
Proof.
  unfold replace_by_id, collection_to_json.
  destruct (mapM_element_id_valid _ (records_valid l)) as [ids ->].
  do 2 f_equal. rewrite !map_map. apply map_ext. intros s.
  rewrite element_id_series. cbn [id_is]. by destruct (str_eq _ _).
Qed.

Lemma findIndex_by_id_records (id : string) (l : list AlarmSeries) :
  findIndex_by_id id (map series_to_json l)
  = Some (findIndex (fun s => str_eq (AlarmSeries.id s) id) l).
Proof.
  induction l as [|s l IH]; [done|].
  cbn [map findIndex_by_id findIndex]. rewrite element_id_series. cbn [id_is].
  destruct (str_eq (AlarmSeries.id s) id); [done|]. by rewrite IH.
Qed.

Lemma findIndex_absent {A} (p : A -> bool) (l : list A) :
  Forall (fun x => p x = false) l -> findIndex p l = -1.
Proof.
  induction 1 as [|x l Hx _ IH]; [done|]. cbn. rewrite Hx, IH. done.
Qed.

Lemma findIndex_split {A} (p : A -> bool) (l1 l2 : list A) (x : A) :
  Forall (fun y => p y = false) l1 -> p x = true ->
  findIndex p (l1 ++ x :: l2) = Z.of_nat (length l1).
Proof.
  intros H1 Hx. apply (findIndex_first p _ (length l1) x).
  - by rewrite lookup_app_r, Nat.sub_diag by lia.
  - done.
  - intros j y Hj Hy. rewrite lookup_app_l in Hy by done.
    apply (proj1 (Forall_forall _ _) H1). by eapply list_elem_of_lookup_2.
Qed.

Lemma findIndex_spec {A} (p : A -> bool) (l : list A) :
  (findIndex p l = -1 /\ Forall (fun y => p y = false) l) \/
  (exists l1 x l2, l = l1 ++ x :: l2 /\ Forall (fun y => p y = false) l1 /\
                   p x = true /\ findIndex p l = Z.of_nat (length l1)).
Proof.
  induction l as [|a l IH]; [by left|].
  destruct (p a) eqn:Ha.
  - right. exists [], a, l. cbn. by rewrite Ha.
  - destruct IH as [[Hi Hall]|(l1 & x & l2 & -> & Hl1 & Hx & Hi)].
    + left. split; [|by constructor]. cbn. by rewrite Ha, Hi.
    + right. exists (a :: l1), x, l2. repeat split; [by constructor|done|].
      cbn [findIndex]. rewrite Ha, Hi. cbn [length].
      destruct (Z.ltb_spec (Z.of_nat (length l1)) 0); lia.
Qed.

(** The collection that [handleSaveSeries] writes, as records. *)
Lemma handleSaveSeries_records (w : World) (cs : AlarmSeries) (l : list AlarmSeries) :
  currentSeries (ui w) = Some cs ->
  series (ui w) = collection_to_json l ->
  let i := findIndex (fun s => str_eq (AlarmSeries.id s) (AlarmSeries.id cs)) l in
  handleSaveSeries w
  = update false (setModalVisible false)
      (saveSeries (collection_to_json
                     (if 0 <=? i then <[Z.to_nat i := cs]> l else l ++ [cs])) w).
Proof.
  intros Hcs Hl i. unfold handleSaveSeries. rewrite Hcs, Hl.
  cbn [spread_elements collection_to_json]. rewrite findIndex_by_id_records. fold i.
  do 2 f_equal. unfold collection_to_json. f_equal.
  destruct (0 <=? i).
  - by rewrite list_fmap_insert.
  - by rewrite map_app.
Qed.

Lemma upsert_absent (cs : AlarmSeries) (l : list AlarmSeries) :
  Forall (fun s => AlarmSeries.id s <> AlarmSeries.id cs) l ->
  let i := findIndex (fun s => str_eq (AlarmSeries.id s) (AlarmSeries.id cs)) l in
  (if 0 <=? i then <[Z.to_nat i := cs]> l else l ++ [cs]) = l ++ [cs].
Proof.
  intros H i. subst i. rewrite findIndex_absent; [done|].
  eapply Forall_impl; [exact H|]. intros s. apply str_eq_false.
Qed.

Lemma upsert_present (cs s0 : AlarmSeries) (l1 l2 : list AlarmSeries) :
  AlarmSeries.id s0 = AlarmSeries.id cs ->
  Forall (fun s => AlarmSeries.id s <> AlarmSeries.id cs) l1 ->
  let l := l1 ++ s0 :: l2 in
  let i := findIndex (fun s => str_eq (AlarmSeries.id s) (AlarmSeries.id cs)) l in
  (if 0 <=? i then <[Z.to_nat i := cs]> l else l ++ [cs]) = l1 ++ cs :: l2.
Proof.
  intros H0 H1 l i. subst i l. rewrite findIndex_split.
  - destruct (Z.leb_spec 0 (Z.of_nat (length l1))); [|lia].
    rewrite Nat2Z.id, insert_app_r_alt, Nat.sub_diag by lia. done.
  - eapply Forall_impl; [exact H1|]. intros s. apply str_eq_false.
  - by apply str_eq_true.
Qed.

(** X6: saving the draft over a collection of records, with the storage
    working, puts the draft in the place of the first series that has its
    id, or at the end when no series has it; the storage holds the same
    collection; the editor closes and the draft stays in [currentSeries];
    saving again changes nothing. *)
Theorem handleSaveSeries_upserts (w : World) (cs : AlarmSeries) (l : list AlarmSeries) :
  currentSeries (ui w) = Some cs ->
  series (ui w) = collection_to_json l ->
  io_fails w = false ->
  let w' := handleSaveSeries w in
  (exists l', series (ui w') = collection_to_json l' /\
              item w' = Some (Wellformed (collection_to_json l')) /\
              series (ui (handleSaveSeries w')) = collection_to_json l' /\
              (Forall (fun s => AlarmSeries.id s <> AlarmSeries.id cs) l ->
               l' = l ++ [cs]) /\
              (forall l1 s0 l2,
                 l = l1 ++ s0 :: l2 ->
                 AlarmSeries.id s0 = AlarmSeries.id cs ->
                 Forall (fun s => AlarmSeries.id s <> AlarmSeries.id cs) l1 ->
                 l' = l1 ++ cs :: l2)) /\
  modalVisible (ui w') = false /\ currentSeries (ui w') = Some cs /\
  log w' = log w.
Proof.
  intros Hcs Hl Hio w'.
  pose proof (handleSaveSeries_records w cs l Hcs Hl) as Hw. cbv zeta in Hw.
  set (i := findIndex _ l) in Hw.
  set (l' := if 0 <=? i then <[Z.to_nat i := cs]> l else l ++ [cs]) in Hw.
  assert (Hs' : series (ui w') = collection_to_json l').
  { subst w'. rewrite Hw. unfold saveSeries. by rewrite Hio. }
  assert (Hcs' : currentSeries (ui w') = Some cs).
  { subst w'. rewrite Hw. unfold saveSeries. by rewrite Hio. }
  assert (Hio' : io_fails w' = false).
  { subst w'. rewrite Hw. unfold saveSeries. by rewrite Hio. }
  assert (Hl' : Forall (fun s => AlarmSeries.id s <> AlarmSeries.id cs) l ->
                l' = l ++ [cs]) by apply upsert_absent.
  assert (Hl'' : forall l1 s0 l2, l = l1 ++ s0 :: l2 ->
                 AlarmSeries.id s0 = AlarmSeries.id cs ->
                 Forall (fun s => AlarmSeries.id s <> AlarmSeries.id cs) l1 ->
                 l' = l1 ++ cs :: l2).
  { intros l1 s0 l2 -> H0 H1. by apply upsert_present. }
  split; [exists l'; repeat split; try done|].
  - subst w'. rewrite Hw. unfold saveSeries. by rewrite Hio.
  - rewrite (handleSaveSeries_records w' cs l' Hcs' Hs'). cbv zeta.
    unfold saveSeries. rewrite Hio'. cbn. f_equal.
    destruct (findIndex_spec (fun s => str_eq (AlarmSeries.id s) (AlarmSeries.id cs)) l)
      as [[_ Habs]|(l1 & s0 & l2 & Heq & Hl1 & Hs0 & _)].
    + assert (Hne : Forall (fun s => AlarmSeries.id s <> AlarmSeries.id cs) l).
      { eapply Forall_impl; [exact Habs|]. intros s. apply str_eq_false. }
      rewrite (Hl' Hne).
      rewrite <- (app_nil_r (l ++ [cs])) at 3. rewrite <- app_assoc. cbn [app].
      by apply (upsert_present cs cs l []).
    + assert (Hne : Forall (fun s => AlarmSeries.id s <> AlarmSeries.id cs) l1).
      { eapply Forall_impl; [exact Hl1|]. intros s. apply str_eq_false. }
      rewrite (Hl'' l1 s0 l2 Heq (proj1 (str_eq_true _ _) Hs0) Hne).
      by apply (upsert_present cs cs l1 l2).
  - subst w'. rewrite Hw. unfold saveSeries. rewrite Hio. by cbn.
Qed.

(** X7: when the storage rejects the write, saving the draft leaves the
    collection and the storage as they were and alerts, but the editor
    closes all the same; the draft is still in [currentSeries]. *)
Theorem handleSaveSeries_failure_closes_editor
    (w : World) (cs : AlarmSeries) (l : list AlarmSeries) :
  currentSeries (ui w) = Some cs ->
  series (ui w) = collection_to_json l ->
  io_fails w = true ->
  let w' := handleSaveSeries w in
  series (ui w') = series (ui w) /\ item w' = item w /\
  currentSeries (ui w') = Some cs /\
  modalVisible (ui w') = false /\
  log w' = log w ++ [ConsoleError "Error saving series:";
                     Alert "Error" "Failed to save series. Please try again."].
Proof.
  intros Hcs Hl Hio w'. subst w'.
  rewrite (handleSaveSeries_records w cs l Hcs Hl). cbv zeta.
  unfold saveSeries, catch, emit. rewrite Hio. cbn.
  by rewrite <- app_assoc.
Qed.

(** X8: creating a series appends to the collection a series without steps,
    named "New Series", whose id is the numeral of the clock reading, writes
    the collection to the storage and makes the new series the draft; the
    editor modal is not opened; playing the new series is refused with the
    validation alert.  When the storage rejects the write nothing changes
    but for the alert. *)
Theorem handleCreateNewSeries_appends (w : World) (l : list AlarmSeries) :
  series (ui w) = collection_to_json l ->
  let created := AlarmSeries.mk (toString (clock w)) "New Series" [] in
  let w' := handleCreateNewSeries w in
  if io_fails w then
    ui w' = ui w /\ item w' = item w /\
    log w' = log w ++ [ConsoleError "Error creating new series:";
                       Alert "Error" "Failed to create new series. Please try again."]
  else
    series (ui w') = collection_to_json (l ++ [created]) /\
    item w' = Some (Wellformed (collection_to_json (l ++ [created]))) /\
    currentSeries (ui w') = Some created /\
    isEditing (ui w') = true /\
    modalVisible (ui w') = modalVisible (ui w) /\
    log w' = log w /\
    log (handlePlaySeries created w')
    = log w ++ [Alert "Error" "Please add steps to the series first"] /\
    ui (handlePlaySeries created w') = ui w'.
Proof.
  intros Hl created w'. subst w'. unfold handleCreateNewSeries. rewrite Hl.
  cbn [spread_elements collection_to_json].
  destruct (io_fails w); cbn.
  - by rewrite <- app_assoc.
  - unfold collection_to_json. by rewrite map_app.
Qed.

(** X9: deleting by id removes from the collection every series with that id
    and keeps the others in their order; with an id that no series has the
    collection is as before; deleting twice is deleting once.  The storage
    takes the new collection when it works; when it rejects the write, the
    collection in memory has changed all the same and the storage has
    not. *)
Theorem handleDeleteSeries_removes_by_id
    (seriesId : string) (w : World) (l : list AlarmSeries) :
  series (ui w) = collection_to_json l ->
  let kept := List.filter (fun s => negb (str_eq (AlarmSeries.id s) seriesId)) l in
  let w' := handleDeleteSeries seriesId w in
  series (ui w') = collection_to_json kept /\
  Forall (fun s => AlarmSeries.id s <> seriesId) kept /\
  (forall s, s ∈ l -> AlarmSeries.id s <> seriesId -> s ∈ kept) /\
  (Forall (fun s => AlarmSeries.id s <> seriesId) l -> kept = l) /\
  series (ui (handleDeleteSeries seriesId w')) = series (ui w') /\
  (if io_fails w then
     item w' = item w /\
     log w' = log w ++ [ConsoleError "Error deleting series:";
                        Alert "Error" "Failed to delete series. Please try again."]
   else item w' = Some (Wellformed (collection_to_json kept)) /\ log w' = log w).
Proof.
  intros Hl kept w'.
  assert (Hs' : series (ui w') = collection_to_json kept).
  { subst w'. unfold handleDeleteSeries. rewrite Hl, filter_out_records.
    by destruct (io_fails _) eqn:?. }
  assert (Hkept : Forall (fun s => AlarmSeries.id s <> seriesId) kept).
  { apply Forall_forall. intros s Hs. apply list_elem_of_In, List.filter_In in Hs as [_ Hs].
    apply negb_true_iff in Hs. by apply str_eq_false. }
  assert (Hid : forall l0, Forall (fun s => AlarmSeries.id s <> seriesId) l0 ->
                List.filter (fun s => negb (str_eq (AlarmSeries.id s) seriesId)) l0 = l0).
  { induction 1 as [|s l0 Hs _ IH]; [done|]. cbn.
    apply str_eq_false in Hs. rewrite Hs. cbn. by rewrite IH. }
  split; [done|]. split; [done|]. split; [|split; [by apply Hid|split]].
  - intros s Hin Hne. apply list_elem_of_In, List.filter_In. split.
    + by apply list_elem_of_In.
    + apply negb_true_iff. by apply str_eq_false.
  - unfold handleDeleteSeries at 1. rewrite Hs', filter_out_records, (Hid kept Hkept).
    by destruct (io_fails _).
  - subst w'. unfold handleDeleteSeries. rewrite Hl, filter_out_records.
    cbn. destruct (io_fails w) eqn:Hio; cbn; [|done].
    by rewrite <- app_assoc.
Qed.

(** X10: the trash button of a step row removes from the draft every step
    with the row's id and at once writes the draft through: every series of
    the stored collection that has the draft's id becomes the whole draft as
    it then is (its name and its other steps as edited so far), without
    waiting for Save. *)
Theorem deleteStepButton_writes_draft_through
    (item0 : AlarmStep) (w : World) (cs : AlarmSeries) (l : list AlarmSeries) :
  currentSeries (ui w) = Some cs ->
  series (ui w) = collection_to_json l ->
  io_fails w = false ->
  let w' := deleteStepButton_onPress item0 w in
  let cs' := AlarmSeries.mk (AlarmSeries.id cs) (AlarmSeries.name cs)
               (List.filter (fun s => negb (str_eq (AlarmStep.id s) (AlarmStep.id item0)))
                            (AlarmSeries.steps cs)) in
  let l' := map (fun s => if str_eq (AlarmSeries.id s) (AlarmSeries.id cs)
                          then cs' else s) l in
  currentSeries (ui w') = Some cs' /\
  Forall (fun s => AlarmStep.id s <> AlarmStep.id item0) (AlarmSeries.steps cs') /\
  series (ui w') = collection_to_json l' /\
  item w' = Some (Wellformed (collection_to_json l')) /\
  (forall s, s ∈ l -> AlarmSeries.id s = AlarmSeries.id cs -> cs' ∈ l') /\
  log w' = log w.
Proof.
  intros Hcs Hl Hio w' cs' l'. subst w'.
  unfold deleteStepButton_onPress. rewrite Hcs, Hl, replace_by_id_records.
  fold cs' l'. unfold saveSeries. cbn. rewrite Hio. cbn.
  repeat split; try done.
  - apply Forall_forall. intros s Hs.
    apply list_elem_of_In, List.filter_In in Hs as [_ Hs].
    apply negb_true_iff in Hs. by apply str_eq_false.
  - intros s Hin Hid. apply list_elem_of_fmap. exists s. split; [|done].
    apply str_eq_true in Hid. by rewrite Hid.
Qed.

(** ** The collection stays a collection of records *)

Lemma valid_collection_JArr (v : json) :
  valid_collection v <->
  exists xs, v = JArr xs /\ Forall (is_Some ∘ json_to_series) xs.
Proof.
  unfold valid_collection, json_to_collection. split.
  - destruct v; try (by intros [? ?]). intros H. eexists. split; [done|].
    by apply mapM_is_Some.
  - intros (xs & -> & H). by apply mapM_is_Some.
Qed.

Lemma series_to_json_valid (s : AlarmSeries) : (is_Some ∘ json_to_series) (series_to_json s).
Proof. unfold compose. rewrite json_to_series_to_json. by eexists. Qed.

Lemma store_valid_same (w w' : World) :
  series (ui w') = series (ui w) -> item w' = item w ->
  store_valid w -> store_valid w'.
Proof. intros Hs Hi. unfold store_valid. by rewrite Hs, Hi. Qed.

Lemma saveSeries_store_valid (v : json) (w : World) :
  valid_collection v -> store_valid w -> store_valid (saveSeries v w).
Proof.
  intros Hv Hw. unfold saveSeries. destruct (io_fails w).
  - by apply (store_valid_same w).
  - by split.
Qed.

Lemma tick_store (delta : Z) (w : World) :
  series (ui (tick delta w)) = series (ui w) /\ item (tick delta w) = item w /\
  io_fails (tick delta w) = io_fails w.
Proof.
  unfold tick, intervalCallback, handleStopSeries, update, playAlarm, emit.
  cbn. repeat case_match; by cbn.
Qed.

Lemma edit_store (op : EditorOp) (w : World) :
  (forall item0, op <> RemoveStep item0) ->
  series (ui (edit op w)) = series (ui w) /\ item (edit op w) = item w /\
  log (edit op w) = log w /\ io_fails (edit op w) = io_fails w.
Proof.
  intros Hop. destruct op as [text| |removed|stepId updates|steps]; cbn [edit];
    unfold seriesNameInput_onChangeText, handleAddStep, handleUpdateStep,
      handleReorderSteps;
    try (by destruct (currentSeries (ui w))).
  by destruct (Hop removed).
Qed.

Lemma replace_by_id_valid (id : string) (cs : AlarmSeries) (v : json) :
  valid_collection v ->
  exists v', replace_by_id id (series_to_json cs) v = Some v' /\ valid_collection v'.
Proof.
  intros (xs & -> & Hxs)%valid_collection_JArr. unfold replace_by_id.
  destruct (mapM_element_id_valid xs Hxs) as [ids ->].
  eexists. split; [done|]. apply valid_collection_JArr. eexists. split; [done|].
  apply Forall_fmap. eapply Forall_impl; [exact Hxs|].
  intros x Hx. unfold compose at 1. repeat case_match; try done.
  apply series_to_json_valid.
Qed.

Lemma filter_out_valid (seriesId : string) (v : json) :
  valid_collection v ->
  exists v', filter_out seriesId v = Some v' /\ valid_collection v'.
Proof.
  intros (xs & -> & Hxs)%valid_collection_JArr. unfold filter_out.
  destruct (mapM_element_id_valid xs Hxs) as [ids ->].
  eexists. split; [done|]. apply valid_collection_JArr. eexists. split; [done|].
  apply Forall_forall. intros x Hx. apply list_elem_of_In, List.filter_In in Hx as [Hx _].
  apply (proj1 (Forall_forall _ _) Hxs). by apply list_elem_of_In.
Qed.

Lemma edit_store_valid (op : EditorOp) (w : World) :
  store_valid w -> store_valid (edit op w).
Proof.
  intros Hw. destruct op as [text| |item0|stepId updates|steps].
  1,2,4,5: match goal with |- store_valid (edit ?o ?w0) =>
             destruct (edit_store o w0) as (? & ? & _); [done|];
             by apply (store_valid_same w0) end.
  cbn [edit]. unfold deleteStepButton_onPress.
  destruct (currentSeries (ui w)) as [cs|]; [|exact Hw].
  match goal with |- context [replace_by_id ?i (series_to_json ?c) _] =>
    destruct (replace_by_id_valid i c _ (proj1 Hw)) as (v' & -> & Hv') end.
  apply saveSeries_store_valid; [done|]. by apply (store_valid_same w).
Qed.

Lemma act_store_valid (a : Action) (w : World) :
  store_valid w -> store_valid (act a w).
Proof.
  intros Hw. pose proof Hw as [Hmem Hdisk]. destruct a; cbn [act].
  - unfold loadSeries. destruct (io_fails w); [by apply (store_valid_same w)|].
    destruct (item w) as [[| |v]|] eqn:Hi; try done. split; [done|]. cbn. by rewrite Hi.
  - unfold handleCreateNewSeries.
    apply valid_collection_JArr in Hmem as (xs & Hxs & Hall). rewrite Hxs.
    cbn [spread_elements]. destruct (io_fails w).
    + apply (store_valid_same w); [done..|]. split; [|done].
      apply valid_collection_JArr. by exists xs.
    + assert (valid_collection (JArr (xs ++ [series_to_json
                (AlarmSeries.mk (toString (clock w)) "New Series" [])]))).
      { apply valid_collection_JArr. eexists. split; [done|].
        apply Forall_app. split; [done|]. repeat constructor. by eexists. }
      by split.
  - by apply (store_valid_same w).
  - by apply edit_store_valid.
  - by apply (edit_store_valid (UpdateStep _ _)).
  - by apply (edit_store_valid (UpdateStep _ _)).
  - unfold handleSaveSeries. destruct (currentSeries (ui w)) as [cs|]; [|exact Hw].
    apply valid_collection_JArr in Hmem as (xs & Hxs & Hall). rewrite Hxs.
    cbn [spread_elements].
    destruct (findIndex_by_id (AlarmSeries.id cs) xs) as [i|]; [|exact Hw].
    assert (Hw' : store_valid (saveSeries
              (JArr (if 0 <=? i then <[Z.to_nat i:=series_to_json cs]> xs
                     else xs ++ [series_to_json cs])) w)).
    { apply saveSeries_store_valid; [|done].
      apply valid_collection_JArr. eexists. split; [done|].
      destruct (0 <=? i).
      - apply Forall_insert; [done|]. apply series_to_json_valid.
      - apply Forall_app. split; [done|]. repeat constructor. apply series_to_json_valid. }
    revert Hw'. by apply store_valid_same.
  - by apply (store_valid_same w).
  - unfold handleDeleteSeries.
    destruct (filter_out_valid seriesId _ Hmem) as (v' & -> & Hv').
    cbn. destruct (io_fails w); by split.
  - unfold clearAllSeries. destruct (io_fails w); [by apply (store_valid_same w)|].
    split; [|done]. cbn. by eexists.
  - unfold handlePlaySeries. destruct (AlarmSeries.steps s); by apply (store_valid_same w).
  - by apply (store_valid_same w).
  - destruct (tick_store delta w) as (? & ? & _). by apply (store_valid_same w).
  - by apply (store_valid_same w).
Qed.

Lemma acts_store_valid (history : list Action) (w : World) :
  store_valid w -> store_valid (acts history w).
Proof.
  revert w. induction history as [|a l IH]; intros w Hw; [done|].
  cbn. apply IH. by apply act_store_valid.
Qed.

(** X11: if the collection in memory and the persisted text are collections
    of Series records, they are so again after any sequence of actions, each
    taken when the handler before it has run to its end, whose numbers stay
    within the safe integers, storage failures included: the screen itself
    never produces or stores anything else. *)
Theorem collection_stays_valid (w0 : World) (history : list Action) :
  store_valid w0 ->
  Forall exact_action history ->
  let w := acts history w0 in
  (exists l, json_to_collection (series (ui w)) = Some l) /\
  match item w with
  | Some (Wellformed v) => exists l, json_to_collection v = Some l
  | Some EmptyText | Some Malformed => False
  | None => True
  end.
Proof.
  intros Hw0 _ w. destruct (acts_store_valid history w0 Hw0) as [Hmem Hdisk].
  fold w in Hmem, Hdisk. split; [exact Hmem|].
  by destruct (item w) as [[| |v]|].
Qed.

(** ** Memory and storage *)

Lemma in_sync_same (w w' : World) :
  series (ui w') = series (ui w) -> item w' = item w -> in_sync w -> in_sync w'.
Proof. intros Hs Hi. unfold in_sync. by rewrite Hs, Hi. Qed.

Lemma saveSeries_in_sync (v : json) (w : World) :
  io_fails w = false ->
  in_sync (saveSeries v w) /\ io_fails (saveSeries v w) = false.
Proof. intros Hio. unfold saveSeries. by rewrite Hio. Qed.

Lemma act_in_sync (a : Action) (w : World) :
  in_sync w -> io_fails w = false -> a <> Storage true ->
  in_sync (act a w) /\ io_fails (act a w) = false.
Proof.
  intros Hw Hio Ha. destruct a; cbn [act].
  - unfold loadSeries. rewrite Hio. unfold in_sync in Hw.
    destruct (item w) as [[| |v]|] eqn:Hi; try done.
    + split; [|done]. unfold in_sync. cbn. by rewrite Hi.
    + split; [|done]. unfold in_sync. by rewrite Hi.
  - unfold handleCreateNewSeries. destruct (spread_elements _).
    + by rewrite Hio.
    + split; [|done]. by apply (in_sync_same w).
  - split; [|done]. by apply (in_sync_same w).
  - destruct op as [text| |item0|stepId updates|steps].
    1,2,4,5: match goal with |- in_sync (edit ?o ?w0) /\ _ =>
               destruct (edit_store o w0) as (? & ? & _ & ?); [done|];
               split; [by apply (in_sync_same w0)|congruence] end.
    cbn [edit]. unfold deleteStepButton_onPress.
    destruct (currentSeries (ui w)); [|done].
    destruct (replace_by_id _ _ _).
    + by apply saveSeries_in_sync.
    + split; [|done]. by apply (in_sync_same w).
  - unfold minutesInput_onChangeText.
    match goal with |- context [handleUpdateStep ?i ?u ?w0] =>
      destruct (edit_store (UpdateStep i u) w0) as (? & ? & _ & ?); [done|] end.
    cbn [edit] in *. split; [by apply (in_sync_same w)|congruence].
  - unfold secondsInput_onChangeText.
    match goal with |- context [handleUpdateStep ?i ?u ?w0] =>
      destruct (edit_store (UpdateStep i u) w0) as (? & ? & _ & ?); [done|] end.
    cbn [edit] in *. split; [by apply (in_sync_same w)|congruence].
  - unfold handleSaveSeries.
    destruct (currentSeries (ui w)) as [cs|]; [|done].
    destruct (spread_elements _) as [xs|]; [|done].
    destruct (findIndex_by_id _ _) as [i|]; [|done].
    match goal with |- context [saveSeries ?v w] =>
      destruct (saveSeries_in_sync v w Hio) as [Hs Hf] end.
    split; [|done]. revert Hs. by apply in_sync_same.
  - split; [|done]. by apply (in_sync_same w).
  - unfold handleDeleteSeries. destruct (filter_out _ _).
    + cbn. by rewrite Hio.
    + split; [|done]. by apply (in_sync_same w).
  - unfold clearAllSeries. by rewrite Hio.
  - unfold handlePlaySeries. destruct (AlarmSeries.steps s);
      (split; [by apply (in_sync_same w)|done]).
  - split; [|done]. by apply (in_sync_same w).
  - destruct (tick_store delta w) as (? & ? & ?).
    split; [by apply (in_sync_same w)|congruence].
  - destruct fails; [done|]. split; [|done]. by apply (in_sync_same w).
Qed.

Lemma acts_in_sync (history : list Action) (w : World) :
  in_sync w -> io_fails w = false ->
  Forall (fun a => a <> Storage true) history ->
  in_sync (acts history w).
Proof.
  revert w. induction history as [|a l IH]; intros w Hw Hio Hall; [done|].
  apply Forall_cons in Hall as [Ha Hall]. cbn.
  destruct (act_in_sync a w Hw Hio Ha). by apply IH.
Qed.

(** X12: as long as the storage never rejects a call, every action is
    taken when the handler before it has run to its end, and the numbers
    stay within the safe integers, then from a first mount on an empty
    storage the collection on screen is the persisted one: mounting the
    screen afresh on that storage loads exactly the collection that is
    shown. *)
Theorem relaunch_shows_the_same_collection (now : Z) (history : list Action) :
  Forall (fun a => a <> Storage true) history ->
  Forall exact_action history ->
  let w := acts history (initialWorld now) in
  forall later,
    series (ui (loadSeries (mkWorld initialState (item w) false later None [])))
    = series (ui w).
Proof.
  intros Hall _ w later.
  pose proof (acts_in_sync history (initialWorld now) eq_refl eq_refl Hall) as Hw.
  fold w in Hw. unfold in_sync in Hw. unfold loadSeries. cbn.
  by destruct (item w) as [[| |v]|].
Qed.

(** ** The editor *)

Lemma edits_store (ops : list EditorOp) (w : World) :
  Forall (fun op => forall item0, op <> RemoveStep item0) ops ->
  let w' := acts (map Edit ops) w in
  series (ui w') = series (ui w) /\ item w' = item w /\ log w' = log w.
Proof.
  revert w. induction ops as [|op ops IH]; intros w Hall; [done|].
  apply Forall_cons in Hall as [Hop Hall].
  change (acts (map Edit (op :: ops)) w) with (acts (map Edit ops) (edit op w)).
  destruct (IH (edit op w) Hall) as (Hs & Hi & Hl). cbv zeta in *.
  rewrite Hs, Hi, Hl.
  by destruct (edit_store op w Hop) as (-> & -> & -> & _).
Qed.

(** X13: opening the editor on a series, renaming it, adding, updating and
    reordering steps, and cancelling, leaves the collection in memory, the
    storage and the log as they were.  Cancel only hides the editor: the
    edited draft stays in [currentSeries] until the editor is opened again,
    which replaces it by the series it is opened on. *)
Theorem edits_then_cancel_persist_nothing
    (ops : list EditorOp) (s : AlarmSeries) (w : World) :
  Forall (fun op => forall item0, op <> RemoveStep item0) ops ->
  let edited := acts (map Edit ops) (handleEditSeries s w) in
  let w' := cancelButton_onPress edited in
  series (ui w') = series (ui w) /\ item w' = item w /\ log w' = log w /\
  modalVisible (ui w') = false /\
  currentSeries (ui w') = currentSeries (ui edited) /\
  currentSeries (ui (handleEditSeries s w')) = Some s.
Proof.
  intros Hall edited w'.
  by destruct (edits_store ops (handleEditSeries s w) Hall) as (Hs & Hi & Hl).
Qed.

(** X14: for a step of the draft with a duration >= 0, and numbers within
    the safe integers: typing [m >= 0] in its minutes input makes the inputs
    show [m] minutes and 0 seconds (the seconds it had are lost); typing
    [0 <= sec < 60] in its seconds input makes them show the minutes it had
    and [sec] seconds; a minutes text that is not a number gives the
    duration 0.  Id and name stay. *)
Theorem duration_inputs_show_what_was_typed
    (w : World) (cs : AlarmSeries) (i : nat) (item0 : AlarmStep) :
  currentSeries (ui w) = Some cs ->
  AlarmSeries.steps cs !! i = Some item0 ->
  0 <= AlarmStep.duration item0 ->
  (forall m, 0 <= m -> m * 60000 <= MAX_SAFE_INTEGER ->
     exists item',
       draft_steps (minutesInput_onChangeText item0 (Some m) w) !! i = Some item' /\
       AlarmStep.id item' = AlarmStep.id item0 /\
       AlarmStep.name item' = AlarmStep.name item0 /\
       AlarmStep.duration item' = m * 60000 /\
       minutesShown item' = m /\ secondsShown item' = 0) /\
  (forall sec, 0 <= sec < 60 ->
     AlarmStep.duration item0 + 60000 <= MAX_SAFE_INTEGER ->
     exists item',
       draft_steps (secondsInput_onChangeText item0 (Some sec) w) !! i = Some item' /\
       AlarmStep.id item' = AlarmStep.id item0 /\
       AlarmStep.name item' = AlarmStep.name item0 /\
       safe (AlarmStep.duration item') /\
       minutesShown item' = minutesShown item0 /\ secondsShown item' = sec) /\
  (exists item',
     draft_steps (minutesInput_onChangeText item0 None w) !! i = Some item' /\
     AlarmStep.duration item' = 0).
Proof.
  intros Hcs Hi Hd.
  assert (Hupd : forall d,
    draft_steps (handleUpdateStep (AlarmStep.id item0)
                   (PartialAlarmStep.mk None (Some d) None) w) !! i
    = Some (AlarmStep.mk (AlarmStep.id item0) d (AlarmStep.name item0))).
  { intros d. unfold handleUpdateStep, draft_steps. rewrite Hcs. cbn.
    rewrite list_lookup_fmap, Hi. cbn.
    by rewrite (proj2 (str_eq_true _ _) eq_refl). }
  split; [|split].
  - intros m Hm _. eexists. split; [apply Hupd|]. unfold minutesShown, secondsShown. cbn.
    repeat split; try done.
    + by rewrite Z.div_mul.
    + by rewrite Z.rem_mul.
  - intros sec Hsec Hmax. eexists. split; [apply Hupd|].
    unfold minutesShown, secondsShown, safe. cbn.
    pose proof (Z.div_pos (AlarmStep.duration item0) 60000 Hd ltac:(lia)).
    pose proof (Z.mul_div_le (AlarmStep.duration item0) 60000 ltac:(lia)).
    repeat split; try done.
    + unfold MAX_SAFE_INTEGER in *. lia.
    + lia.
    + rewrite Z.add_comm, Z.div_add by lia. rewrite Z.div_small by lia. lia.
    + rewrite Z.rem_mod_nonneg by lia.
      rewrite Z.add_comm, Z.mod_add by lia. rewrite Z.mod_small by lia.
      by rewrite Z.div_mul.
  - eexists. split; [apply Hupd|]. done.
Qed.

(** X15: when, while a step is running, the editor is opened on a series
    that has no step with the running step's id, the countdown of the step
    restarts, and at its expiry the engine fires the step's notification
    and the completion alert and goes idle: the remaining steps of the
    played series are not run. *)
Theorem editing_another_series_ends_the_session
    (s s' : AlarmSeries) (log0 : list Event) (k : nat) (step : AlarmStep)
    (t0 : Z) (w : World) (delta : Z) :
  playing_at s log0 k step t0 w ->
  AlarmStep.id step ∉ map AlarmStep.id (AlarmSeries.steps s') ->
  AlarmStep.duration step <= delta ->
  let w' := tick delta (handleEditSeries s' w) in
  isPlaying (ui w') = false /\ currentStep (ui w') = None /\
  remainingTime (ui w') = 0 /\ interval w' = None /\
  log w' = log w ++ [Haptic step; seriesComplete].
Proof.
  intros (Hk & Hp & Hs & Hc & Hi & Hl) Hnotin Hle w'.
  assert (Hne : s <> s').
  { intros <-. apply Hnotin. apply list_elem_of_fmap. exists step.
    split; [done|]. by eapply list_elem_of_lookup_2. }
  assert (Habs : findIndex (fun st => str_eq (AlarmStep.id st) (AlarmStep.id step))
                           (AlarmSeries.steps s') = -1).
  { apply findIndex_absent. apply Forall_forall. intros st Hst. apply str_eq_false.
    intros Heq. apply Hnotin. rewrite <- Heq. apply list_elem_of_fmap. by exists st. }
  subst w'. unfold tick, intervalCallback, handleEditSeries, update, deps, timerEffect.
  cbn. rewrite Hp, Hs, Hc.
  rewrite bool_decide_eq_false_2 by congruence. cbn.
  destruct (Z.leb_spec (Z.max 0 (AlarmStep.duration step - (clock w + delta - clock w))) 0);
    [|lia].
  unfold closure_steps. cbn. rewrite Habs. cbn.
  repeat split; try done; [by case_match|by rewrite <- app_assoc].
Qed.

(** ** The further properties at concrete inputs *)

Lemma session_agrees_with_cells_witness :
  let work := AlarmStep.mk "1" 1500000 "Work" in
  let brk := AlarmStep.mk "2" 300000 "Break" in
  let pomodoro := AlarmSeries.mk "p" "Pomodoro" [work; brk] in
  let w := acts [Play pomodoro; Tick 1500000; Edit AddStep] (initialWorld 0) in
  exists iv,
    interval w = Some iv /\
    currentStep (ui w) = Some (Interval.currentStep iv) /\
    currentSeries (ui w) = Interval.currentSeries iv /\
    AlarmStep.duration (Interval.currentStep iv) = Interval.duration iv.
Proof.
  intros work brk pomodoro w. eexists. split; [by vm_compute|].
  apply (proj2 (session_agrees_with_cells 0
                  [Play pomodoro; Tick 1500000; Edit AddStep])).
  by vm_compute.
Defined.

Lemma formatTime_shows_whole_seconds_witness :
  formatTime 899984 = "14:59"%string /\
  String.length (formatTime 899984) = 5%nat /\
  (formatTime 899984 = formatTime 899000 <-> 899984 / 1000 = 899000 / 1000).
Proof.
  split; [by vm_compute|].
  apply (formatTime_shows_whole_seconds 899984 899000); lia.
Defined.

Lemma handleSaveSeries_upserts_witness :
  let legs := AlarmSeries.mk "1" "Legs" [AlarmStep.mk "10" 60000 "Step 1"] in
  let arms := AlarmSeries.mk "2" "Arms" [] in
  let draft := AlarmSeries.mk "1" "Leg day" [AlarmStep.mk "10" 90000 "Squats"] in
  let stored := collection_to_json [legs; arms] in
  let w := mkWorld (mkState stored (Some draft) false false None 0 true)
                   (Some (Wellformed stored)) false 0 None [] in
  let w' := handleSaveSeries w in
  series (ui w') = collection_to_json [draft; arms] /\
  item w' = Some (Wellformed (collection_to_json [draft; arms])) /\
  modalVisible (ui w') = false.
Proof.
  intros legs arms draft stored w w'.
  destruct (handleSaveSeries_upserts w draft [legs; arms] eq_refl eq_refl eq_refl)
    as ((l' & Hmem & Hdisk & _ & _ & Hpresent) & Hmodal & _).
  fold w' in Hmem, Hdisk, Hmodal.
  rewrite (Hpresent [] legs [arms] eq_refl eq_refl ltac:(constructor)) in Hmem, Hdisk.
  done.
Defined.

Lemma handleSaveSeries_failure_closes_editor_witness :
  let legs := AlarmSeries.mk "1" "Legs" [] in
  let draft := AlarmSeries.mk "1" "Leg day" [] in
  let stored := collection_to_json [legs] in
  let w := mkWorld (mkState stored (Some draft) false false None 0 true)
                   (Some (Wellformed stored)) true 0 None [] in
  let w' := handleSaveSeries w in
  series (ui w') = stored /\ item w' = Some (Wellformed stored) /\
  currentSeries (ui w') = Some draft /\
  modalVisible (ui w') = false /\
  log w' = [] ++ [ConsoleError "Error saving series:";
                  Alert "Error" "Failed to save series. Please try again."].
Proof.
  intros legs draft stored w w'.
  apply (handleSaveSeries_failure_closes_editor w draft [legs]); reflexivity.
Defined.

Lemma handleCreateNewSeries_appends_witness :
  let legs := AlarmSeries.mk "1" "Legs" [] in
  let w := mkWorld (setSeries (collection_to_json [legs]) initialState)
                   (Some (Wellformed (collection_to_json [legs]))) false 1700000000000
                   None [] in
  let created := AlarmSeries.mk "1700000000000" "New Series" [] in
  let w' := handleCreateNewSeries w in
  series (ui w') = collection_to_json ([legs] ++ [created]) /\
  item w' = Some (Wellformed (collection_to_json ([legs] ++ [created]))) /\
  currentSeries (ui w') = Some created /\
  isEditing (ui w') = true /\
  modalVisible (ui w') = false /\
  log w' = [] /\
  log (handlePlaySeries created w')
  = [] ++ [Alert "Error" "Please add steps to the series first"] /\
  ui (handlePlaySeries created w') = ui w'.
Proof.
  intros legs w created w'.
  apply (handleCreateNewSeries_appends w [legs]). reflexivity.
Defined.

Lemma handleDeleteSeries_removes_by_id_witness :
  let legs := AlarmSeries.mk "1" "Legs" [] in
  let arms := AlarmSeries.mk "2" "Arms" [] in
  let again := AlarmSeries.mk "1" "Legs, again" [] in
  let stored := collection_to_json [legs; arms; again] in
  let w := mkWorld (setSeries stored initialState) (Some (Wellformed stored))
                   true 0 None [] in
  let w' := handleDeleteSeries "1" w in
  series (ui w') = collection_to_json [arms] /\ item w' = Some (Wellformed stored).
Proof.
  intros legs arms again stored w w'.
  destruct (handleDeleteSeries_removes_by_id "1" w [legs; arms; again] eq_refl)
    as (Hmem & _ & _ & _ & _ & Hdisk & _).
  split; [exact Hmem|exact Hdisk].
Defined.

Lemma deleteStepButton_writes_draft_through_witness :
  let squats := AlarmStep.mk "10" 60000 "Squats" in
  let rest := AlarmStep.mk "11" 30000 "Rest" in
  let legs := AlarmSeries.mk "1" "Legs" [squats; rest] in
  let arms := AlarmSeries.mk "2" "Arms" [] in
  let stored := collection_to_json [legs; arms] in
  let w := edit (Rename "Leg day")
             (handleEditSeries legs
                (mkWorld (setSeries stored initialState) (Some (Wellformed stored))
                         false 0 None [])) in
  let w' := deleteStepButton_onPress rest w in
  series (ui w') = collection_to_json [AlarmSeries.mk "1" "Leg day" [squats]; arms] /\
  item w'
  = Some (Wellformed (collection_to_json [AlarmSeries.mk "1" "Leg day" [squats]; arms])).
Proof.
  intros squats rest legs arms stored w w'.
  destruct (deleteStepButton_writes_draft_through rest w
              (AlarmSeries.mk "1" "Leg day" [squats; rest]) [legs; arms]
              eq_refl eq_refl eq_refl)
    as (_ & _ & Hmem & Hdisk & _).
  split; [exact Hmem|exact Hdisk].
Defined.

Lemma collection_stays_valid_witness :
  let added := AlarmStep.mk "7" 60000 "Step 1" in
  let w := acts [CreateNewSeries; Edit AddStep; MinutesInput added (Some 2);
                 Storage true; SaveSeries; DeleteSeries "7"; Storage false;
                 Edit AddStep; SaveSeries; Mount]
                (initialWorld 7) in
  (exists l, json_to_collection (series (ui w)) = Some l) /\
  match item w with
  | Some (Wellformed v) => exists l, json_to_collection v = Some l
  | Some EmptyText | Some Malformed => False
  | None => True
  end.
Proof.
  intros added w.
  apply (collection_stays_valid (initialWorld 7)
           [CreateNewSeries; Edit AddStep; MinutesInput added (Some 2);
            Storage true; SaveSeries; DeleteSeries "7"; Storage false;
            Edit AddStep; SaveSeries; Mount]).
  - split; [by eexists|done].
  - repeat constructor; unfold safe, MAX_SAFE_INTEGER; cbn; lia.
Defined.

Lemma relaunch_shows_the_same_collection_witness :
  let added := AlarmStep.mk "7" 60000 "Step 1" in
  let w := acts [CreateNewSeries; Edit AddStep; MinutesInput added (Some 2);
                 Edit (Rename "Legs"); SaveSeries; Tick 16; CreateNewSeries;
                 DeleteSeries "7"]
                (initialWorld 7) in
  series (ui (loadSeries (mkWorld initialState (item w) false 99 None [])))
  = series (ui w).
Proof.
  intros added w.
  apply (relaunch_shows_the_same_collection 7
           [CreateNewSeries; Edit AddStep; MinutesInput added (Some 2);
            Edit (Rename "Legs"); SaveSeries; Tick 16; CreateNewSeries;
            DeleteSeries "7"]).
  - repeat constructor; discriminate.
  - repeat constructor; unfold safe, MAX_SAFE_INTEGER; cbn; lia.
Defined.

Lemma edits_then_cancel_persist_nothing_witness :
  let squats := AlarmStep.mk "10" 60000 "Squats" in
  let legs := AlarmSeries.mk "1" "Legs" [squats] in
  let stored := collection_to_json [legs] in
  let w := mkWorld (setSeries stored initialState) (Some (Wellformed stored))
                   false 5 None [] in
  let ops := [Rename "Leg day"; AddStep;
              UpdateStep "10" (PartialAlarmStep.mk None (Some 90000) None);
              ReorderSteps [squats]] in
  let edited := acts (map Edit ops) (handleEditSeries legs w) in
  let w' := cancelButton_onPress edited in
  series (ui w') = stored /\ item w' = Some (Wellformed stored) /\ log w' = [] /\
  modalVisible (ui w') = false /\
  currentSeries (ui w') = currentSeries (ui edited) /\
  currentSeries (ui (handleEditSeries legs w')) = Some legs.
Proof.
  intros squats legs stored w ops edited w'.
  apply (edits_then_cancel_persist_nothing ops legs w).
  repeat constructor; discriminate.
Defined.

Lemma duration_inputs_show_what_was_typed_witness :
  let squats := AlarmStep.mk "10" 95500 "Squats" in
  let legs := AlarmSeries.mk "1" "Legs" [squats] in
  let w := handleEditSeries legs (initialWorld 0) in
  (minutesShown squats = 1 /\ secondsShown squats = 35) /\
  (exists item',
     draft_steps (minutesInput_onChangeText squats (Some 2) w) !! 0%nat = Some item' /\
     AlarmStep.id item' = "10"%string /\ AlarmStep.name item' = "Squats"%string /\
     AlarmStep.duration item' = 2 * 60000 /\
     minutesShown item' = 2 /\ secondsShown item' = 0) /\
  (exists item',
     draft_steps (secondsInput_onChangeText squats (Some 40) w) !! 0%nat = Some item' /\
     AlarmStep.id item' = "10"%string /\ AlarmStep.name item' = "Squats"%string /\
     safe (AlarmStep.duration item') /\
     minutesShown item' = 1 /\ secondsShown item' = 40).
Proof.
  intros squats legs w. split; [by vm_compute|].
  destruct (duration_inputs_show_what_was_typed w legs 0 squats eq_refl eq_refl)
    as (Hmin & Hsec & _); [cbn; lia|].
  split.
  - apply (Hmin 2); [lia|]. unfold MAX_SAFE_INTEGER. lia.
  - apply (Hsec 40); [lia|]. unfold MAX_SAFE_INTEGER. cbn. lia.
Defined.

Lemma editing_another_series_ends_the_session_witness :
  let work := AlarmStep.mk "1" 1500000 "Work" in
  let brk := AlarmStep.mk "2" 300000 "Break" in
  let pomodoro := AlarmSeries.mk "p" "Pomodoro" [work; brk] in
  let other := AlarmSeries.mk "o" "Stretch" [AlarmStep.mk "7" 60000 "Step 1"] in
  let w := handlePlaySeries pomodoro (initialWorld 0) in
  let w' := tick 1500000 (handleEditSeries other w) in
  isPlaying (ui w') = false /\ currentStep (ui w') = None /\
  remainingTime (ui w') = 0 /\ interval w' = None /\
  log w' = log w ++ [Haptic work; seriesComplete].
Proof.
  intros work brk pomodoro other w w'.
  apply (editing_another_series_ends_the_session pomodoro other [] 0 work 0 w 1500000).
  - by vm_compute.
  - apply (bool_decide_unpack _). by vm_compute.
  - cbn. lia.
Defined.

(** ** Where playback leaves the specification *)

(** Two [addStep]s at one clock reading give the draft two steps with the
    same id.  Played, that series fires for its first step and for its
    second, and then looks the second step's id up, finds the first step,
    and sets the second step as the current step again: nothing changes, no
    interval is installed, and whatever deliveries follow, the completion
    never fires and the engine stays playing. *)
Lemma duplicate_step_ids_never_complete :
  let first := AlarmStep.mk "1700000000000" 60000 "Step 1" in
  let second := AlarmStep.mk "1700000000000" 60000 "Step 2" in
  let s := AlarmSeries.mk "s" "New Series" [first; second] in
  let w := run [60000; 60000] (handlePlaySeries s (initialWorld 1700000000000)) in
  draft_steps
    (handleAddStep
       (handleAddStep
          (handleEditSeries (AlarmSeries.mk "s" "New Series" [])
                            (initialWorld 1700000000000))))
  = [first; second] /\
  log w = [Haptic first; Haptic second] /\
  isPlaying (ui w) = true /\ currentStep (ui w) = Some second /\
  interval w = None /\
  forall delays,
    log (run delays w) = [Haptic first; Haptic second] /\
    isPlaying (ui (run delays w)) = true.
Proof.
  intros first second s w.
  assert (Hi : interval w = None) by (by vm_compute).
  split; [by vm_compute|]. split; [by vm_compute|]. split; [by vm_compute|].
  split; [by vm_compute|]. split; [done|].
  intros delays. destruct (run_without_interval delays w Hi) as (-> & -> & _).
  split; by vm_compute.
Qed.

